(** * IoT Models Repository client: dependency resolution

    A shallow embedding of the dependency-resolution core of
    [sdk/iot/modelsrepository]:

    - [PseudoParser] ([src/psuedoParser.ts]): [_getModelDependencies],
      [_expand] and [expand];
    - [SyncPseudoParser] (the synchronous variant of the same class kept in
      [src/unnamed/part_001]);
    - [ModelsRepositoryClient] ([src/modelsRepositoryClient.ts]):
      [isLocalPath] (over the regular expressions of [RegExp]), the
      constructor's choice of mode, [_checkDefaultDependencyResolution],
      [_createClient] and [getModels];
    - [Addressing] and [Resolver]: the DTMI conventions and the
      [DtmiResolver], which the sources only import; both are modelled from
      the specification.

    Model documents are parsed JSON values.  A plain JavaScript object used
    as a dictionary ([expandedMap], [modelMap]) is the [gmap string json]
    of its own properties; the code tests keys with [in] ([has_property])
    and assigns properties ([assign]).  An object whose entries are
    enumerated ([Object.keys], [Object.values]) is the list of its entries
    in enumeration order. *)

From Stdlib Require Import Ascii.
From stdpp Require Import gmap strings list fin_maps.

#[local] Set Warnings "-register-all,-clear-no-such-hyp".
#[local] Open Scope string_scope.
#[local] Open Scope list_scope.

(** ** JavaScript values and errors *)

(** A parsed JSON value.  A number is identified by the text [String(n)]
    renders for it, which is all the code ever observes of a number. *)
Inductive json :=
| JNull
| JBool (b : bool)
| JNum (repr : string)
| JStr (s : string)
| JArr (items : list json)
| JObj (fields : list (string * json)).

(** Modelled from the spec: the failure taxonomy of the resolver and of the
    fetchers (section 7); the classes that raise them are imported by the
    sources, not defined in them. *)
Inductive failure :=
| InvalidDtmiFormat
| NotFound
| TransportError
| MalformedModel
| IdentityMismatch
| ExpandedNotAvailable.

(** What a [throw] can carry.  [RestError] is the class of
    [@azure/core-rest-pipeline] that both [catch] blocks test with
    [instanceof]; [ResolverError] stands for every other class the resolver
    may raise. *)
Inductive error :=
| Error (message : string)
| TypeError
| EvalError (message : string)
| RestError (cause : failure)
| ResolverError (cause : failure).

(** [e instanceof RestError] *)
Definition isRestError (e : error) : bool :=
  match e with
  | RestError _ => true
  | _ => false
  end.

(** The completion of a call: a value, or a thrown error (a rejected
    promise, for an [async] function). *)
Inductive result (A : Type) :=
| Ok (a : A)
| Throw (e : error).
Arguments Ok {A} a.
Arguments Throw {A} e.

#[global] Instance result_ret : MRet result := fun A a => Ok a.
#[global] Instance result_bind : MBind result := fun A B f r =>
  match r with
  | Ok a => f a
  | Throw e => Throw e
  end.

(** An element of the [dependencies] array: a string, or (because
    [dependencies.push] is handed a whole array) a nested array. *)
Inductive dep :=
| DStr (s : string)
| DArr (l : list dep).

(** [String(d)], the property key [d in modelMap] looks for. *)
Fixpoint dep_to_key (d : dep) : string :=
  match d with
  | DStr s => s
  | DArr l => String.concat "," (map dep_to_key l)
  end.

(** [String(v)] for a JSON value: the key [expandedMap[v]] writes to and
    the text a template literal inserts. *)
Fixpoint to_string (v : json) : string :=
  match v with
  | JNull => "null"
  | JBool true => "true"
  | JBool false => "false"
  | JNum repr => repr
  | JStr s => s
  | JArr items =>
      String.concat ","
        (map (fun e => match e with JNull => "" | _ => to_string e end) items)
  | JObj _ => "[object Object]"
  end.

(** First binding of [k] in a list of entries: the property [o[k]] of an
    object with these entries. *)
Fixpoint assoc {A : Type} (k : string) (entries : list (string * A)) : option A :=
  match entries with
  | [] => None
  | (k', v) :: rest => if String.eqb k k' then Some v else assoc k rest
  end.

(** [v[k]] for a JSON value other than [null]: [undefined] ([None]) unless
    [v] is an object that has the property. *)
Definition prop (k : string) (v : json) : option json :=
  match v with
  | JObj fields => assoc k fields
  | _ => None
  end.

Section Field.
Context {A : Type} (k : string) (absent : A) (present : json -> A).

(** Case analysis on [o[k] !== undefined], written as a recursion over the
    entries so that [present] may recurse into the value. *)
Fixpoint with_field (fields : list (string * json)) : A :=
  match fields with
  | [] => absent
  | (k', v) :: rest => if String.eqb k k' then present v else with_field rest
  end.
End Field.

Section ForEach.
Context {A B : Type} (visit : A -> result (list B)).

(** [array.forEach(visit)] where each visit pushes some elements: the
    pushes in order, or the first error thrown. *)
Fixpoint for_each (l : list A) : result (list B) :=
  match l with
  | [] => Ok []
  | x :: rest =>
      match visit x with
      | Throw e => Throw e
      | Ok pushed =>
          match for_each rest with
          | Throw e => Throw e
          | Ok more => Ok (pushed ++ more)
          end
      end
  end.
End ForEach.

(** [Array.from(new Set(dependencies))]: the first occurrence of every
    string is kept; a nested array is a fresh object, equal to nothing else,
    and is always kept. *)
Fixpoint array_from_set (seen : list string) (l : list dep) : list dep :=
  match l with
  | [] => []
  | DStr s :: rest =>
      if bool_decide (s ∈ seen) then array_from_set seen rest
      else DStr s :: array_from_set (s :: seen) rest
  | DArr a :: rest => DArr a :: array_from_set seen rest
  end.

(** *** Objects used as dictionaries

    [expandedMap] and [modelMap] are objects created by [{}]: their
    prototype is [Object.prototype].  A [gmap string json] holds their own
    properties. *)

(** The names of the properties of [Object.prototype] (ECMAScript 2015,
    with its annex B), which every such object inherits. *)
Definition Object_prototype : list string :=
  ["constructor"; "__defineGetter__"; "__defineSetter__"; "hasOwnProperty";
   "__lookupGetter__"; "__lookupSetter__"; "isPrototypeOf"; "propertyIsEnumerable";
   "toString"; "valueOf"; "__proto__"; "toLocaleString"].

Definition inherited (key : string) : bool :=
  bool_decide (key ∈ Object_prototype).

(** [key in o]: an own property, or one inherited from [Object.prototype]. *)
Definition has_property (o : gmap string json) (key : string) : bool :=
  bool_decide (key ∈ dom o) || inherited key.

(** [o[key] = value].  The properties of [Object.prototype] are writable
    data properties, which an assignment shadows with an own property,
    except [__proto__]: it is an accessor, and the assignment hands the
    value to its setter, which adds no own property.  (The setter replaces
    the prototype of [o] when the value is an object or [null]; what [o]
    inherits from then on is not modelled, and the properties that depend
    on it exclude the key.) *)
Definition assign (key : string) (value : json) (o : gmap string json)
  : gmap string json :=
  if String.eqb key "__proto__" then o else <[key := value]> o.

(** ** psuedoParser.ts *)

Module PseudoParser.

(** The callback of [contents.forEach] (lines 67-77). *)
Definition component_schema (element : json) : result (list dep) :=
  match element with
  | JNull => Throw TypeError
  | _ =>
      match prop "@type" element with
      | Some (JStr ty) =>
          if String.eqb ty "Component" then
            match prop "schema" element with
            | Some (JStr schema) =>
                if String.eqb schema "" then Ok [] else Ok [DStr schema]
            | _ => Ok []
            end
          else Ok []
      | _ => Ok []
      end
  end.

(** Lines 65-78: [model.contents], when defined, must have [forEach]. *)
Definition contents_dependencies (fields : list (string * json)) : result (list dep) :=
  match assoc "contents" fields with
  | None => Ok []
  | Some (JArr contents) => for_each component_schema contents
  | Some _ => Throw TypeError
  end.

Section Extends.

(** [this._getModelDependencies], for the recursive call of line 88. *)
Variable recur : json -> result (list dep).

(** The callback of [model.extends.forEach] (lines 84-90): a string is
    pushed; for anything else of type ["object"] (an object, an array,
    [null]) the array returned by the recursive call is pushed, as one
    element. *)
Definition extends_element (element : json) : result (list dep) :=
  match element with
  | JStr s => Ok [DStr s]
  | JNull | JArr _ | JObj _ =>
      match recur element with
      | Throw e => Throw e
      | Ok nested => Ok [DArr nested]
      end
  | _ => Ok []
  end.

(** Lines 81-91, for a defined [model.extends]. *)
Definition extends_dependencies (extends : json) : result (list dep) :=
  match extends with
  | JStr s => Ok [DStr s]
  | JArr elements => for_each extends_element elements
  | _ => Ok []
  end.

End Extends.

(** [_getModelDependencies] (lines 62-96). *)
Fixpoint _getModelDependencies (model : json) : result (list dep) :=
  match model with
  | JNull => Throw TypeError
  | JObj fields =>
      match contents_dependencies fields with
      | Throw e => Throw e
      | Ok from_contents =>
          match
            with_field "extends" (Ok [])
              (extends_dependencies _getModelDependencies) fields
          with
          | Throw e => Throw e
          | Ok from_extends => Ok (array_from_set [] (from_contents ++ from_extends))
          end
      end
  | _ => Ok []
  end.

(** *** Expansion

    [_expand] is an [async] function.  It runs synchronously up to its
    first [await] (lines 34-43), where it waits for the resolver; when the
    resolver settles it merges the result into the shared [modelMap] and
    starts one [_expand] per resolved model (lines 51-57), all of which
    reach their own [await] before anything else runs.  The calls in
    flight therefore form a pool of batches waiting for the resolver, and
    the resolver may settle them in any order. *)

Section WithResolver.

(** [this._resolver.resolve(dtmis, expandedModel)]: a resolved object,
    given by its entries in enumeration order, or a rejection.  The
    repository does not change during a call. *)
Variable resolve : list dep -> bool -> result (list (string * json)).

(** Lines 42-50: the resolver is tried with [tryFromExpanded]; a
    [RestError] is answered by a second attempt with [false]. *)
Definition resolve_with_retry (batch : list dep) (tryFromExpanded : bool)
  : result (list (string * json)) :=
  match resolve batch tryFromExpanded with
  | Ok resolved => Ok resolved
  | Throw e => if isRestError e then resolve batch false else Throw e
  end.

(** The second resolver call of lines 42-50, when it is made. *)
Definition retry_call (batch : list dep) (tryFromExpanded : bool)
  : list (list dep * bool) :=
  match resolve batch tryFromExpanded with
  | Ok _ => []
  | Throw e => if isRestError e then [(batch, false)] else []
  end.

(** A call of [_expand] that has reached its [await] (the resolver has
    been called with [batch]), or that threw before reaching it. *)
Inductive task :=
| Awaiting (batch : list dep)
| Rejected (e : error).

(** Lines 36-38: [dependencies.filter(d => !(d in modelMap))]. *)
Definition dependenciesToResolve (modelMap : gmap string json) (dependencies : list dep)
  : list dep :=
  List.filter (fun d => negb (has_property modelMap (dep_to_key d))) dependencies.

(** Lines 34-43: the part of [_expand(model, modelMap, _)] that runs
    before the first [await].  No task is left when nothing is
    outstanding. *)
Definition start (modelMap : gmap string json) (model : json) : list task :=
  match _getModelDependencies model with
  | Throw e => [Rejected e]
  | Ok dependencies =>
      match dependenciesToResolve modelMap dependencies with
      | [] => []
      | batch => [Awaiting batch]
      end
  end.

(** The resolver calls made by tasks when they start. *)
Fixpoint issued (tryFromExpanded : bool) (tasks : list task) : list (list dep * bool) :=
  match tasks with
  | [] => []
  | Awaiting batch :: rest => (batch, tryFromExpanded) :: issued tryFromExpanded rest
  | Rejected _ :: rest => issued tryFromExpanded rest
  end.

(** Lines 51-53: [Object.keys(resolved).forEach(key => modelMap[key] = resolved[key])]. *)
Definition merge (resolved : list (string * json)) (modelMap : gmap string json)
  : gmap string json :=
  foldl (fun m key =>
           match assoc key resolved with
           | Some model => assign key model m
           | None => m
           end)
        modelMap resolved.*1.

(** Lines 54-57: one [_expand] per value of the resolved object. *)
Definition spawn (modelMap : gmap string json) (resolved : list (string * json))
  : list task :=
  concat (map (start modelMap) resolved.*2).

(** The shared map, the calls in flight and the resolver calls made so
    far. *)
Record state := State {
  modelMap : gmap string json;
  pending : list task;
  fetches : list (list dep * bool)
}.

(** What an expansion settles to: the map or the error of the first
    rejection, and the resolver calls made until then. *)
Definition settled : Type := result (gmap string json) * list (list dep * bool).

(** The state in which [_expand(model, m, tryFromExpanded)] waits. *)
Definition entered (tryFromExpanded : bool) (model : json) (m : gmap string json)
    (log : list (list dep * bool)) : state :=
  State m (start m model) (log ++ issued tryFromExpanded (start m model)).

(** The state after the resolver has fulfilled a batch with [resolved]
    (lines 51-57); [others] are the other calls in flight. *)
Definition resumed (tryFromExpanded : bool) (m : gmap string json) (others : list task)
    (log : list (list dep * bool)) (batch : list dep) (resolved : list (string * json))
  : state :=
  let m' := merge resolved m in
  State m' (others ++ spawn m' resolved)
        (log ++ retry_call batch tryFromExpanded
             ++ issued tryFromExpanded (spawn m' resolved)).

(** Every order in which the resolver may settle the batches in flight.
    [Promise.all] rejects with the first rejection; nothing is in flight
    when every promise has fulfilled. *)
Inductive settles (tryFromExpanded : bool) : state -> settled -> Prop :=
| settles_fulfilled m log :
    settles tryFromExpanded (State m [] log) (Ok m, log)
| settles_rejected m before e after log :
    settles tryFromExpanded (State m (before ++ Rejected e :: after) log) (Throw e, log)
| settles_resolve_failed m before batch after log e :
    resolve_with_retry batch tryFromExpanded = Throw e ->
    settles tryFromExpanded (State m (before ++ Awaiting batch :: after) log)
      (Throw e, log ++ retry_call batch tryFromExpanded)
| settles_resolved m before batch after log resolved out :
    resolve_with_retry batch tryFromExpanded = Ok resolved ->
    settles tryFromExpanded
      (resumed tryFromExpanded m (before ++ after) log batch resolved) out ->
    settles tryFromExpanded (State m (before ++ Awaiting batch :: after) log) out.

(** The first call that threw before its [await], if any. *)
Fixpoint first_rejected (tasks : list task) : option error :=
  match tasks with
  | [] => None
  | Rejected e :: _ => Some e
  | Awaiting _ :: rest => first_rejected rest
  end.

(** One schedule, as a function: a rejection raised synchronously
    surfaces first; otherwise the resolver settles the batches in the
    order they were requested.  [fuel] bounds the number of batches. *)
Fixpoint settle (fuel : nat) (tryFromExpanded : bool) (st : state) : option settled :=
  match first_rejected (pending st) with
  | Some e => Some (Throw e, fetches st)
  | None =>
      match pending st with
      | [] => Some (Ok (modelMap st), fetches st)
      | Rejected e :: _ => Some (Throw e, fetches st)
      | Awaiting batch :: rest =>
          match fuel with
          | O => None
          | S fuel' =>
              match resolve_with_retry batch tryFromExpanded with
              | Throw e =>
                  Some (Throw e, fetches st ++ retry_call batch tryFromExpanded)
              | Ok resolved =>
                  settle fuel' tryFromExpanded
                    (resumed tryFromExpanded (modelMap st) rest (fetches st)
                             batch resolved)
              end
          end
      end
  end.

(** [await this._expand(model, modelMap, tryFromExpanded)] (lines 33-60). *)
Definition _expand (fuel : nat) (model : json) (m : gmap string json)
    (log : list (list dep * bool)) (tryFromExpanded : bool) : option settled :=
  settle fuel tryFromExpanded (entered tryFromExpanded model m log).

(** Lines 22-27 of [expand]: [model["@id"]] is read (a [TypeError] on
    [null]) and, when defined, names the property that receives the
    model. *)
Definition seed (model : json) (expandedMap : gmap string json)
  : result (gmap string json) :=
  match model with
  | JNull => Throw TypeError
  | _ =>
      match prop "@id" model with
      | Some id => Ok (assign (to_string id) model expandedMap)
      | None =>
          Throw (Error ("model " +:+ to_string model +:+ " does not contain @id member"))
      end
  end.

(** The [for] loop of [expand] (lines 21-29), from a given map. *)
Fixpoint expand_from (fuel : nat) (models : list json) (expandedMap : gmap string json)
    (log : list (list dep * bool)) (tryFromExpanded : bool) : option settled :=
  match models with
  | [] => Some (Ok expandedMap, log)
  | model :: rest =>
      match seed model expandedMap with
      | Throw e => Some (Throw e, log)
      | Ok seeded =>
          match _expand fuel model seeded log tryFromExpanded with
          | None => None
          | Some (Throw e, log') => Some (Throw e, log')
          | Some (Ok expanded, log') =>
              expand_from fuel rest expanded log' tryFromExpanded
          end
      end
  end.

(** [expand(models, tryFromExpanded)] (lines 19-31). *)
Definition expand (fuel : nat) (models : list json) (tryFromExpanded : bool)
  : option settled :=
  expand_from fuel models ∅ [] tryFromExpanded.

(** [expand] under every schedule of the resolver. *)
Inductive expands (tryFromExpanded : bool)
  : list json -> gmap string json -> list (list dep * bool) -> settled -> Prop :=
| expands_nil m log :
    expands tryFromExpanded [] m log (Ok m, log)
| expands_seed_throws model rest m log e :
    seed model m = Throw e ->
    expands tryFromExpanded (model :: rest) m log (Throw e, log)
| expands_expand_throws model rest m log seeded e log' :
    seed model m = Ok seeded ->
    settles tryFromExpanded (entered tryFromExpanded model seeded log) (Throw e, log') ->
    expands tryFromExpanded (model :: rest) m log (Throw e, log')
| expands_next model rest m log seeded expanded log' out :
    seed model m = Ok seeded ->
    settles tryFromExpanded (entered tryFromExpanded model seeded log) (Ok expanded, log') ->
    expands tryFromExpanded rest expanded log' out ->
    expands tryFromExpanded (model :: rest) m log out.

End WithResolver.

End PseudoParser.

(** ** src/unnamed/part_001: the synchronous PseudoParser *)

Module SyncPseudoParser.

(** Lines 42-76 are, statement for statement, lines 62-96 of
    psuedoParser.ts. *)
Definition _getModelDependencies : json -> result (list dep) :=
  PseudoParser._getModelDependencies.

(** What the synchronous [resolve] hands back, as far as the parser looks
    at it: the own enumerable properties an object spread copies, and the
    models [.values()] iterates ([None] when the value has no such
    method). *)
Record resolution := Resolution {
  own_entries : list (string * json);
  values : option (list json)
}.

Section WithResolver.

(** [this._resolver.resolve(dtmis)] *)
Variable resolve : list dep -> result resolution.

(** Line 35: [{ ...modelMap, ...resolvedDependenciesMap }], a new
    object.  A spread defines own properties; no setter is involved. *)
Definition spread (modelMap : gmap string json) (resolved : resolution)
  : gmap string json :=
  foldl (fun m entry => <[entry.1 := entry.2]> m) modelMap (own_entries resolved).

Section Loop.
Context (body : json -> option (result unit)).

(** [for (let dependencyModel of models) body(dependencyModel)] *)
Fixpoint for_of (models : list json) : option (result unit) :=
  match models with
  | [] => Some (Ok tt)
  | dependencyModel :: rest =>
      match body dependencyModel with
      | Some (Ok _) => for_of rest
      | stopped => stopped
      end
  end.
End Loop.

(** [_expand(model, modelMap)] (lines 26-40).  [modelMap] is a
    parameter: line 35 assigns the new object to the parameter, and the
    object the caller passed is not written to.  [fuel] bounds the depth
    of the recursion. *)
Fixpoint _expand (fuel : nat) (model : json) (modelMap : gmap string json)
  : option (result unit) :=
  match fuel with
  | O => None
  | S fuel' =>
      match _getModelDependencies model with
      | Throw e => Some (Throw e)
      | Ok dependencies =>
          match PseudoParser.dependenciesToResolve modelMap dependencies with
          | [] => Some (Ok tt)
          | batch =>
              match resolve batch with
              | Throw e => Some (Throw e)
              | Ok resolved =>
                  let modelMap' := spread modelMap resolved in
                  match values resolved with
                  | None => Some (Throw TypeError)
                  | Some models =>
                      for_of (fun dependencyModel =>
                                _expand fuel' dependencyModel modelMap')
                             models
                  end
              end
          end
      end
  end.

(** Line 19: [expandedMap[model['@id']] = model]; an undefined [@id]
    names the property ["undefined"]. *)
Definition seed (model : json) (expandedMap : gmap string json)
  : result (gmap string json) :=
  match model with
  | JNull => Throw TypeError
  | _ =>
      match prop "@id" model with
      | Some id => Ok (assign (to_string id) model expandedMap)
      | None => Ok (assign "undefined" model expandedMap)
      end
  end.

(** The [models.forEach] of [expand] (lines 18-21), from a given map. *)
Fixpoint expand_from (fuel : nat) (models : list json) (expandedMap : gmap string json)
  : option (result (gmap string json)) :=
  match models with
  | [] => Some (Ok expandedMap)
  | model :: rest =>
      match seed model expandedMap with
      | Throw e => Some (Throw e)
      | Ok seeded =>
          match _expand fuel model seeded with
          | None => None
          | Some (Throw e) => Some (Throw e)
          | Some (Ok _) => expand_from fuel rest seeded
          end
      end
  end.

(** [expand(models)] (lines 15-24). *)
Definition expand (fuel : nat) (models : list json) : option (result (gmap string json)) :=
  expand_from fuel models ∅.

End WithResolver.

End SyncPseudoParser.

(** ** Regular expressions

    The fragment of JavaScript regular expressions [isLocalPath] is written
    in: character classes, concatenation, alternation, [*] and [+], between
    [^] and [$].  For such an expression [p.match] finds a match exactly
    when the whole string belongs to its language, which the derivatives
    below decide.  Strings are read as lists of characters. *)

Module RegExp.

Inductive regex :=
| Never
| Empty
| Class (accepts : ascii -> bool)
| Cat (r1 r2 : regex)
| Alt (r1 r2 : regex)
| Star (r : regex).

(** [r+] *)
Definition Plus (r : regex) : regex := Cat r (Star r).

(** The expression matches the empty string. *)
Fixpoint nullable (r : regex) : bool :=
  match r with
  | Never => false
  | Empty => true
  | Class _ => false
  | Cat r1 r2 => nullable r1 && nullable r2
  | Alt r1 r2 => nullable r1 || nullable r2
  | Star _ => true
  end.

(** What is left to match after the character [c]. *)
Fixpoint derive (c : ascii) (r : regex) : regex :=
  match r with
  | Never => Never
  | Empty => Never
  | Class accepts => if accepts c then Empty else Never
  | Cat r1 r2 =>
      if nullable r1 then Alt (Cat (derive c r1) r2) (derive c r2)
      else Cat (derive c r1) r2
  | Alt r1 r2 => Alt (derive c r1) (derive c r2)
  | Star r => Cat (derive c r) (Star r)
  end.

(** [^r$] matches the characters [s]. *)
Fixpoint matches (r : regex) (s : list ascii) : bool :=
  match s with
  | [] => nullable r
  | c :: rest => matches (derive c r) rest
  end.

(** The language of an expression. *)
Inductive lang : regex -> list ascii -> Prop :=
| lang_empty : lang Empty []
| lang_class accepts c : accepts c = true -> lang (Class accepts) [c]
| lang_cat r1 r2 s1 s2 : lang r1 s1 -> lang r2 s2 -> lang (Cat r1 r2) (s1 ++ s2)
| lang_alt_l r1 r2 s : lang r1 s -> lang (Alt r1 r2) s
| lang_alt_r r1 r2 s : lang r2 s -> lang (Alt r1 r2) s
| lang_star_nil r : lang (Star r) []
| lang_star_more r s1 s2 : lang r s1 -> lang (Star r) s2 -> lang (Star r) (s1 ++ s2).

(** Every character an expression can match satisfies [allowed]. *)
Fixpoint within (allowed : ascii -> bool) (r : regex) : Prop :=
  match r with
  | Never | Empty => True
  | Class accepts => forall c, accepts c = true -> allowed c = true
  | Cat r1 r2 | Alt r1 r2 => within allowed r1 /\ within allowed r2
  | Star r => within allowed r
  end.

(** The character classes of [isLocalPath]: [\w], [[a-zA-Z]], [[\w\.]],
    [[\w.$]] and single characters. *)
Definition word (c : ascii) : bool :=
  let n := nat_of_ascii c in
  ((65 <=? n)%nat && (n <=? 90)%nat) || ((97 <=? n)%nat && (n <=? 122)%nat)
  || ((48 <=? n)%nat && (n <=? 57)%nat) || Ascii.eqb c "_"%char.

Definition letter (c : ascii) : bool :=
  let n := nat_of_ascii c in
  ((65 <=? n)%nat && (n <=? 90)%nat) || ((97 <=? n)%nat && (n <=? 122)%nat).

Definition word_or_dot (c : ascii) : bool := word c || Ascii.eqb c "."%char.

Definition word_dot_or_dollar (c : ascii) : bool :=
  word c || Ascii.eqb c "."%char || Ascii.eqb c "$"%char.

Definition char (x : ascii) : regex := Class (Ascii.eqb x).

(** The characters that occur in the expression of [isLocalPath]. *)
Definition path_char (c : ascii) : bool :=
  word c || Ascii.eqb c "."%char || Ascii.eqb c ":"%char
  || Ascii.eqb c "\"%char || Ascii.eqb c "$"%char.

End RegExp.

(** ** modelsRepositoryClient.ts *)

Module ModelsRepositoryClient.

Import RegExp.

(** The expression of line 23,
    [^(?:[a-zA-Z]\:|\\\\[\w\.]+\\[\w.$]+)\\(?:[\w]+\\)*\w([\w.])+$]:
    a drive letter and a colon, or two backslashes, a server and a share;
    a backslash; directories, each followed by a backslash; a file name. *)
Definition local_path_pattern : regex :=
  Cat (Alt (Cat (Class letter) (char ":"))
           (Cat (char "\")
                (Cat (char "\")
                     (Cat (Plus (Class word_or_dot))
                          (Cat (char "\") (Plus (Class word_dot_or_dollar)))))))
      (Cat (char "\")
           (Cat (Star (Cat (Plus (Class word)) (char "\")))
                (Cat (Class word) (Plus (Class word_or_dot))))).

(** [isLocalPath] (lines 22-25): [!!p.match(myRegex)]. *)
Definition isLocalPath (p : string) : bool :=
  matches local_path_pattern (String.list_ascii_of_string p).

(** Modelled from the spec: the three mode names of [constants.ts], which
    the client imports as [cnst]. *)
Definition DEPENDENCY_MODE_DISABLED : string := "disabled".
Definition DEPENDENCY_MODE_ENABLED : string := "enabled".
Definition DEPENDENCY_MODE_TRY_FROM_EXPANDED : string := "tryFromExpanded".

(** [_checkDefaultDependencyResolution] (lines 62-68). *)
Definition _checkDefaultDependencyResolution (customRepository : bool) : string :=
  if customRepository then "enabled" else "tryFromExpanded".

(** [a || b] on optional strings: [undefined] and the empty string are
    falsy. *)
Definition or_else (a : option string) (b : string) : string :=
  match a with
  | Some s => if String.eqb s "" then b else s
  | None => b
  end.

(** The options the constructor and [getModels] read. *)
Record ModelsRepositoryClientOptions := {
  repositoryLocation : option string;
  clientDependencyResolution : option string
}.

Record GetModelsOptions := {
  dependencyResolution : option string
}.

(** Lines 45-47 of the constructor: [this._dependencyResolution]. *)
Definition configured_dependencyResolution (options : ModelsRepositoryClientOptions)
  : string :=
  or_else (clientDependencyResolution options)
    (_checkDefaultDependencyResolution
       (match repositoryLocation options with
        | Some location => negb (String.eqb location "")
        | None => false
        end)).

(** Line 188: [options?.dependencyResolution || this._dependencyResolution]. *)
Definition effective_mode (configured : string) (options : option GetModelsOptions)
  : string :=
  or_else (options ≫= dependencyResolution) configured.

(** The first argument of [getModels]: [string | string[]]. *)
Inductive dtmis_argument :=
| OneDtmi (dtmi : string)
| DtmiArray (dtmis : list string).

Section WithResolver.

(** [this._resolver], shared with [this._pseudoParser]. *)
Variable resolve : list dep -> bool -> result (list (string * json)).

(** The own properties of the resolved object, which [getModels] hands
    on as it is. *)
Definition as_map (resolved : list (string * json)) : gmap string json :=
  foldl (fun m key =>
           match assoc key resolved with
           | Some model => <[key := model]> m
           | None => m
           end)
        ∅ resolved.*1.

(** [getModels] (lines 179-219) for a client whose
    [_dependencyResolution] is [configured].  The promise fulfils with a
    map or with [undefined] ([None]), or rejects; the second component
    lists the resolver calls made.  A missing [expandedModel] or
    [tryFromExpanded] argument is [undefined], which the callee can only
    test for truth: it is passed as [false]. *)
Definition getModels (fuel : nat) (configured : string) (dtmis : dtmis_argument)
    (options : option GetModelsOptions)
  : option (result (option (gmap string json)) * list (list dep * bool)) :=
  let dtmis :=
    match dtmis with
    | OneDtmi dtmi => [dtmi]
    | DtmiArray dtmis => dtmis
    end in
  let dependencyResolution := effective_mode configured options in
  if String.eqb dependencyResolution DEPENDENCY_MODE_DISABLED then
    match resolve (map DStr dtmis) false with
    | Throw e => Some (Throw e, [(map DStr dtmis, false)])
    | Ok modelMap => Some (Ok (Some (as_map modelMap)), [(map DStr dtmis, false)])
    end
  else if String.eqb dependencyResolution DEPENDENCY_MODE_ENABLED then
    match resolve (map DStr dtmis) false with
    | Throw e => Some (Throw e, [(map DStr dtmis, false)])
    | Ok baseModelMap =>
        let baseModelList :=
          omap (fun key => assoc key baseModelMap) baseModelMap.*1 in
        match PseudoParser.expand resolve fuel baseModelList false with
        | None => None
        | Some (Throw e, log) => Some (Throw e, (map DStr dtmis, false) :: log)
        | Some (Ok modelMap, log) =>
            Some (Ok (Some modelMap), (map DStr dtmis, false) :: log)
        end
    end
  else if String.eqb dependencyResolution DEPENDENCY_MODE_TRY_FROM_EXPANDED then
    match resolve (map DStr dtmis) true with
    | Ok modelMap => Some (Ok (Some (as_map modelMap)), [(map DStr dtmis, true)])
    | Throw e =>
        if isRestError e then Some (Ok None, [(map DStr dtmis, true)])
        else Some (Throw e, [(map DStr dtmis, true)])
    end
  else
    Some (Throw (EvalError ("Invalid dependency resolution mode: " +:+ dependencyResolution)),
          []).

End WithResolver.

(** The user agent options of the pipeline options: a JavaScript object,
    which the options the caller passed and the copy [_createClient] makes
    both refer to. *)
Record UserAgentOptions := {
  userAgentPrefix : option string
}.

Section CreateClient.

(** [cnst.DEFAULT_USER_AGENT], of [constants.ts]. *)
Variable DEFAULT_USER_AGENT : string.

(** Lines 104-108: the prefix [_createClient] stores, given the one it
    finds (a missing or empty prefix is falsy). *)
Definition extended_prefix (found : option string) : string :=
  match found with
  | Some prefix =>
      if String.eqb prefix "" then DEFAULT_USER_AGENT
      else prefix +:+ " " +:+ DEFAULT_USER_AGENT
  | None => DEFAULT_USER_AGENT
  end.

(** Lines 99-108 of [_createClient], on a heap of [userAgentOptions]
    objects.  [userAgentOptions] is the reference held by the caller's
    [options] ([None] when the property is missing); the spread of line 99
    copies the reference, not the object.  A missing object is replaced, in
    the copy only, by a new one (line 102); the prefix is then assigned
    through the reference.  The result is the heap and the reference the
    pipeline is created with. *)
Definition _createClient (userAgentOptions : option nat)
    (heap : gmap nat UserAgentOptions) : gmap nat UserAgentOptions * nat :=
  let '(heap, reference) :=
    match userAgentOptions with
    | Some reference => (heap, reference)
    | None =>
        let reference := fresh (dom heap) in
        (<[reference := {| userAgentPrefix := None |}]> heap, reference)
    end in
  (<[reference :=
       {| userAgentPrefix :=
           Some (extended_prefix (heap !! reference ≫= userAgentPrefix)) |}]> heap,
   reference).

(** The heap after [n] clients have been created from the same options. *)
Definition created (n : nat) (userAgentOptions : option nat)
    (heap : gmap nat UserAgentOptions) : gmap nat UserAgentOptions :=
  Nat.iter n (fun heap => (_createClient userAgentOptions heap).1) heap.

(** [n] copies of the default user agent, each after a space. *)
Fixpoint appended (n : nat) : string :=
  match n with
  | O => ""
  | S n' => appended n' +:+ " " +:+ DEFAULT_USER_AGENT
  end.

End CreateClient.

End ModelsRepositoryClient.

(** ** Addressing *)

Module Addressing.

(** The lower-case form of a character (ASCII letters only). *)
Definition lower_ascii (c : ascii) : ascii :=
  let n := nat_of_ascii c in
  if (65 <=? n)%nat && (n <=? 90)%nat then ascii_of_nat (n + 32) else c.

Fixpoint lower (s : string) : string :=
  match s with
  | EmptyString => EmptyString
  | String c rest => String (lower_ascii c) (lower rest)
  end.

(** The segments of [s] between the characters [sep] accepts; there is
    always at least one. *)
Fixpoint split (sep : ascii -> bool) (s : string) : list string :=
  match s with
  | EmptyString => [EmptyString]
  | String c rest =>
      if sep c then EmptyString :: split sep rest
      else
        match split sep rest with
        | [] => [String c EmptyString]
        | segment :: segments => String c segment :: segments
        end
  end.

Definition is_colon (c : ascii) : bool := Ascii.eqb c ":"%char.
Definition is_semicolon (c : ascii) : bool := Ascii.eqb c ";"%char.
Definition is_delimiter (c : ascii) : bool := is_colon c || is_semicolon c.

Fixpoint all_chars (p : ascii -> bool) (s : string) : bool :=
  match s with
  | EmptyString => true
  | String c rest => p c && all_chars p rest
  end.

Definition is_digit (c : ascii) : bool :=
  let n := nat_of_ascii c in (48 <=? n)%nat && (n <=? 57)%nat.

(** A decimal numeral that is not zero. *)
Definition positive_integer (version : string) : bool :=
  negb (String.eqb version "")
  && all_chars is_digit version
  && negb (all_chars (fun c => Ascii.eqb c "0"%char) version).

(** Modelled from the spec: the path of section 4.1, "split the DTMI on
    [:] and [;], lower-case every segment, join path segments with [/],
    append [-<version>.json]"; the last segment is the version.
    [dtmiConventions] is imported by the resolver, which is itself not
    among the sources. *)
Definition path_with (suffix : string) (dtmi : string) : string :=
  let segments := map lower (split is_delimiter dtmi) in
  String.concat "/" (removelast segments)
    +:+ "-" +:+ List.last segments "" +:+ suffix.

(** The same path written character by character: every letter in lower
    case, [:] turned into [/] and [;] into [-]. *)
Fixpoint translate (s : string) : string :=
  match s with
  | EmptyString => EmptyString
  | String c rest =>
      String (if is_colon c then "/" else if is_semicolon c then "-" else lower_ascii c)%char
             (translate rest)
  end.

Section Scheme.

(** The characters a path segment may consist of; section 4.1 rejects
    "disallowed characters" without listing them. *)
Variable segment_char : ascii -> bool.

Definition valid_segment (segment : string) : bool :=
  negb (String.eqb segment "") && all_chars segment_char segment.

(** Modelled from the spec: the scheme [dtmi:<path-segments>;<version>]
    of section 3, with colon-separated non-empty segments and a positive
    integer version. *)
Definition matches_scheme (dtmi : string) : bool :=
  match split is_semicolon dtmi with
  | [name; version] =>
      positive_integer version
      && match split is_colon name with
         | scheme :: segment :: segments =>
             String.eqb scheme "dtmi" && forallb valid_segment (segment :: segments)
         | _ => false
         end
  | _ => false
  end.

(** Modelled from the spec: [toPath] of section 4.1. *)
Definition toPath (dtmi : string) : result string :=
  if matches_scheme dtmi then Ok (path_with ".json" dtmi)
  else Throw (ResolverError InvalidDtmiFormat).

(** Modelled from the spec: [toExpandedPath] of section 4.1. *)
Definition toExpandedPath (dtmi : string) : result string :=
  if matches_scheme dtmi then Ok (path_with ".expanded.json" dtmi)
  else Throw (ResolverError InvalidDtmiFormat).

End Scheme.

Definition is_letter (c : ascii) : bool :=
  let n := nat_of_ascii c in
  ((65 <=? n)%nat && (n <=? 90)%nat) || ((97 <=? n)%nat && (n <=? 122)%nat).

(** Letters, digits and the underscore: the alphabet used in the
    examples. *)
Definition word_char (c : ascii) : bool :=
  is_letter c || is_digit c || Ascii.eqb c "_"%char.

End Addressing.

(** ** Resolver and Fetcher *)

Module Resolver.

Import Addressing.

(** Modelled from the spec: the outcome of [Fetcher.fetch] (section 4.2):
    the document bytes, [NotFound], or [TransportError].  Neither fetcher
    is among the sources. *)
Inductive fetched :=
| Payload (bytes : string)
| Absent
| Unreachable.

(** [object[key] = value] on the entries of an object: an existing
    property keeps its place. *)
Fixpoint set_entry {A : Type} (key : string) (value : A) (entries : list (string * A))
  : list (string * A) :=
  match entries with
  | [] => [(key, value)]
  | (k, v) :: rest =>
      if String.eqb key k then (k, value) :: rest
      else (k, v) :: set_entry key value rest
  end.

Section WithFetcher.

Variable segment_char : ascii -> bool.
(** The injected fetcher, and the JSON parser. *)
Variable fetch : string -> fetched.
Variable parse : string -> option json.

(** Step 1: the target path of a requested DTMI.  A request that is not
    a string does not match the scheme. *)
Definition target (preferExpanded : bool) (requested : dep) : result (string * string) :=
  match requested with
  | DStr dtmi =>
      path ← (if preferExpanded then toExpandedPath segment_char dtmi
              else toPath segment_char dtmi);
      Ok (dtmi, path)
  | DArr _ => Throw (ResolverError InvalidDtmiFormat)
  end.

Definition is_absent (f : fetched) : bool :=
  match f with
  | Absent => true
  | _ => false
  end.

(** Step 2: the payload of a fetch, or its failure. *)
Definition payload (entry : string * fetched) : result (string * string) :=
  match entry.2 with
  | Payload bytes => Ok (entry.1, bytes)
  | Absent => Throw (ResolverError NotFound)
  | Unreachable => Throw (ResolverError TransportError)
  end.

(** Step 3: parse; [MalformedModel] without a document that carries
    ["@id"]. *)
Definition parsed (entry : string * string) : result (string * json) :=
  match parse entry.2 with
  | Some document =>
      match prop "@id" document with
      | Some _ => Ok (entry.1, document)
      | None => Throw (ResolverError MalformedModel)
      end
  | None => Throw (ResolverError MalformedModel)
  end.

(** Step 4: the case-normalised ["@id"] is the case-normalised request. *)
Definition verified (entry : string * json) : result (string * json) :=
  match prop "@id" entry.2 with
  | Some (JStr id) =>
      if String.eqb (lower id) (lower entry.1) then Ok entry
      else Throw (ResolverError IdentityMismatch)
  | _ => Throw (ResolverError IdentityMismatch)
  end.

(** Modelled from the spec: [Resolver.resolve(dtmis, preferExpanded)] of
    section 4.3, steps 1 to 5.  All documents are fetched; an absent
    expanded document is reported as [ExpandedNotAvailable], the
    condition the caller's [catch] recognises, and any other failure is
    the first one in request order.  [DtmiResolver] is imported by
    psuedoParser.ts and modelsRepositoryClient.ts, not defined in the
    sources. *)
Definition resolve (dtmis : list dep) (preferExpanded : bool)
  : result (list (string * json)) :=
  targets ← mapM (target preferExpanded) dtmis;
  let fetches := map (fun t => (t.1, fetch t.2)) targets in
  if preferExpanded && existsb (fun f => is_absent f.2) fetches
  then Throw (RestError ExpandedNotAvailable)
  else
    payloads ← mapM payload fetches;
    documents ← mapM parsed payloads;
    models ← mapM verified documents;
    Ok (foldl (fun entries model => set_entry model.1 model.2 entries) [] models).

(** The document the repository holds for a DTMI: fetched from its path,
    parsed, and carrying the DTMI, up to case, as ["@id"]. *)
Definition resolved_from (expanded : bool) (dtmi : string) (document : json) : Prop :=
  exists path bytes id,
    (if expanded then toExpandedPath segment_char dtmi else toPath segment_char dtmi)
    = Ok path
    /\ fetch path = Payload bytes
    /\ parse bytes = Some document
    /\ prop "@id" document = Some (JStr id)
    /\ lower id = lower dtmi.

End WithFetcher.

End Resolver.

(** ** A small repository *)

Module Example.

Import Addressing Resolver.

Definition thermostat_id : string := "dtmi:com:example:Thermostat;1".
Definition device_id : string := "dtmi:com:example:Device;1".

(** The Thermostat of section 8, which extends Device. *)
Definition thermostat : json :=
  JObj [("@id", JStr thermostat_id);
        ("@type", JStr "Interface");
        ("extends", JStr device_id)].

Definition device : json :=
  JObj [("@id", JStr device_id); ("@type", JStr "Interface")].

(** A repository that holds both documents and no expanded document. *)
Definition fetch (path : string) : fetched :=
  if String.eqb path "dtmi/com/example/thermostat-1.json" then Payload "thermostat bytes"
  else if String.eqb path "dtmi/com/example/device-1.json" then Payload "device bytes"
  else Absent.

(** The same repository without the Device document. *)
Definition fetch_without_device (path : string) : fetched :=
  if String.eqb path "dtmi/com/example/thermostat-1.json" then Payload "thermostat bytes"
  else Absent.

Definition parse (bytes : string) : option json :=
  if String.eqb bytes "thermostat bytes" then Some thermostat
  else if String.eqb bytes "device bytes" then Some device
  else None.

Definition resolve : list dep -> bool -> result (list (string * json)) :=
  Resolver.resolve word_char fetch parse.

Definition resolve_without_device : list dep -> bool -> result (list (string * json)) :=
  Resolver.resolve word_char fetch_without_device parse.

(** The same repository behind a server that answers every request for an
    expanded document with an error status, which the HTTP pipeline raises
    as a [RestError]. *)
Definition resolve_failing_expanded (dtmis : list dep) (expanded : bool)
  : result (list (string * json)) :=
  if expanded then Throw (RestError TransportError) else resolve dtmis false.

(** A synchronous resolver over the same repository, answering with a
    [Map] (no own enumerable properties). *)
Definition resolve_sync (dtmis : list dep) : result SyncPseudoParser.resolution :=
  resolved ← resolve dtmis false;
  Ok (SyncPseudoParser.Resolution [] (Some resolved.*2)).

(** A cycle: A extends B and B extends A. *)
Definition cyclic_a : json :=
  JObj [("@id", JStr "dtmi:com:example:A;1"); ("extends", JStr "dtmi:com:example:B;1")].
Definition cyclic_b : json :=
  JObj [("@id", JStr "dtmi:com:example:B;1"); ("extends", JArr [JStr "dtmi:com:example:A;1"])].

Definition resolve_cycle (dtmis : list dep) (expanded : bool)
  : result (list (string * json)) :=
  match dtmis with
  | [DStr dtmi] =>
      if String.eqb dtmi "dtmi:com:example:A;1" then Ok [(dtmi, cyclic_a)]
      else if String.eqb dtmi "dtmi:com:example:B;1" then Ok [(dtmi, cyclic_b)]
      else Throw (ResolverError NotFound)
  | _ => Throw (ResolverError NotFound)
  end.

(** A model that extends an inline interface, which extends Device. *)
Definition with_inline_extends : json :=
  JObj [("@id", JStr "dtmi:com:example:Sensor;1");
        ("extends", JArr [JObj [("@type", JStr "Interface"); ("extends", JStr device_id)]])].

Definition tryFromExpanded_option : option ModelsRepositoryClient.GetModelsOptions :=
  Some {| ModelsRepositoryClient.dependencyResolution := Some "tryFromExpanded" |}.
Definition enabled_option : option ModelsRepositoryClient.GetModelsOptions :=
  Some {| ModelsRepositoryClient.dependencyResolution := Some "enabled" |}.
Definition disabled_option : option ModelsRepositoryClient.GetModelsOptions :=
  Some {| ModelsRepositoryClient.dependencyResolution := Some "disabled" |}.

End Example.

(** ** Vocabulary of the properties *)

Module Closure.

Import PseudoParser.

(** The keys [expand] files a list of models under. *)
Definition identifiers (models : list json) : gset string :=
  list_to_set (omap (fun model => to_string <$> prop "@id" model) models).

(** The input set as a map: every model under its own ["@id"]. *)
Definition seeds (models : list json) : gmap string json :=
  foldl (fun m model =>
           match prop "@id" model with
           | Some id => <[to_string id := model]> m
           | None => m
           end)
        ∅ models.

(** The dependency closure of the list is contained in the list: every
    model has an ["@id"], and each of its dependencies is the ["@id"] of
    some model of the list. *)
Definition closure_contained (models : list json) : bool :=
  forallb
    (fun model =>
       match prop "@id" model, _getModelDependencies model with
       | Some _, Ok dependencies =>
           forallb (fun d => bool_decide (dep_to_key d ∈ identifiers models)) dependencies
       | _, _ => false
       end)
    models.

(** The same, in list order: each dependency of a model is the ["@id"]
    of that model, of one before it in the list, or is [known]
    beforehand. *)
Fixpoint closed_in_order (known : gset string) (models : list json) : bool :=
  match models with
  | [] => true
  | model :: rest =>
      match prop "@id" model, _getModelDependencies model with
      | Some id, Ok dependencies =>
          forallb (fun d => bool_decide (dep_to_key d ∈ {[to_string id]} ∪ known))
                  dependencies
          && closed_in_order ({[to_string id]} ∪ known) rest
      | _, _ => false
      end
  end.

(** [s] is the schema of a Component among the contents of the model. *)
Definition component_schema_of (model : json) (s : string) : Prop :=
  exists contents element,
    prop "contents" model = Some (JArr contents)
    /\ element ∈ contents
    /\ prop "@type" element = Some (JStr "Component")
    /\ prop "schema" element = Some (JStr s)
    /\ s <> "".

(** [s] is what the model extends, or a string among what it extends. *)
Definition extends_string_of (model : json) (s : string) : Prop :=
  prop "extends" model = Some (JStr s)
  \/ exists elements, prop "extends" model = Some (JArr elements) /\ JStr s ∈ elements.

(** The strings among the dependencies. *)
Definition strings_of (dependencies : list dep) : list string :=
  omap (fun d => match d with DStr s => Some s | DArr _ => None end) dependencies.

(** A map is closed when the dependencies of each of its documents are
    keys of the map. *)
Definition closed (m : gmap string json) : Prop :=
  forall key document,
    m !! key = Some document ->
    exists dependencies,
      _getModelDependencies document = Ok dependencies
      /\ forall d, d ∈ dependencies -> dep_to_key d ∈ dom m.

(** The resolver answers every request of a batch it fulfils: each
    requested DTMI is a key of the resolved object. *)
Definition answers_requests (resolve : list dep -> bool -> result (list (string * json)))
  : Prop :=
  forall batch expanded resolved,
    resolve batch expanded = Ok resolved ->
    forall d, d ∈ batch -> dep_to_key d ∈ resolved.*1.

(** A document of the map is covered when each of its dependencies is a
    key of the map or is being resolved, or when the [_expand] started for
    it has thrown. *)
Definition covered (m : gmap string json) (tasks : list task) (document : json) : Prop :=
  match _getModelDependencies document with
  | Throw e => Rejected e ∈ tasks
  | Ok dependencies =>
      forall d, d ∈ dependencies ->
                dep_to_key d ∈ dom m
                \/ exists batch, Awaiting batch ∈ tasks /\ d ∈ batch
  end.

(** The invariant of an expansion in progress. *)
Definition invariant (st : state) : Prop :=
  forall key document,
    modelMap st !! key = Some document ->
    covered (modelMap st) (pending st) document.

(** The keys reachable from the initial models along the dependencies of
    the documents of [m]. *)
Inductive reachable (m : gmap string json) (models : list json) : string -> Prop :=
| reachable_initial key :
    key ∈ identifiers models -> reachable m models key
| reachable_dependency key document dependencies d :
    reachable m models key ->
    m !! key = Some document ->
    _getModelDependencies document = Ok dependencies ->
    d ∈ dependencies ->
    reachable m models (dep_to_key d).

(** No dependency of the document has the name of a property of
    [Object.prototype]; DTMIs, which start with [dtmi:], never have. *)
Definition plain_dependencies (document : json) : Prop :=
  forall dependencies d,
    _getModelDependencies document = Ok dependencies ->
    d ∈ dependencies ->
    inherited (dep_to_key d) = false.

(** The document is not identified as [__proto__], and its dependencies
    are plain. *)
Definition plain_model (document : json) : Prop :=
  to_string <$> prop "@id" document <> Some "__proto__"
  /\ plain_dependencies document.

(** The resolver returns plain documents, none of them under the key
    [__proto__]. *)
Definition plain_resolver (resolve : list dep -> bool -> result (list (string * json)))
  : Prop :=
  forall batch expanded resolved key document,
    resolve batch expanded = Ok resolved ->
    (key, document) ∈ resolved ->
    key <> "__proto__" /\ plain_model document.

End Closure.

(** ** Vocabulary of the resolver calls *)

Module Provenance.

Import PseudoParser Closure.

(** Nesting depth of a JSON value. *)
Fixpoint depth (v : json) : nat :=
  match v with
  | JArr items => S (foldr (fun item n => depth item `max` n) 0%nat items)
  | JObj fields =>
      S (foldr (fun field n => (let '(_, value) := field in depth value) `max` n)
           0%nat fields)
  | _ => 0%nat
  end.

Section WithResolver.

Variable resolve : list dep -> bool -> result (list (string * json)).

(** The resolver calls [_expand] may make: for a batch that is not empty
    and names no string twice, with the flag [expand] was given, or
    without it after the call with it has failed with a [RestError]. *)
Definition disciplined (tryFromExpanded : bool) (log : list (list dep * bool)) : Prop :=
  forall batch expanded,
    (batch, expanded) ∈ log ->
    batch <> []
    /\ NoDup (strings_of batch)
    /\ (expanded = tryFromExpanded
        \/ expanded = false
           /\ (batch, tryFromExpanded) ∈ log
           /\ exists cause, resolve batch tryFromExpanded = Throw (RestError cause)).

(** The calls in flight have been logged, and a call that threw before
    its [await] threw a [TypeError]. *)
Definition logged (tryFromExpanded : bool) (log : list (list dep * bool))
    (tasks : list task) : Prop :=
  forall t,
    t ∈ tasks ->
    match t with
    | Awaiting batch => (batch, tryFromExpanded) ∈ log
    | Rejected e => e = TypeError
    end.

(** The document was resolved under this key by a call of the log. *)
Definition resolved_by (log : list (list dep * bool)) (key : string) (document : json)
  : Prop :=
  exists batch expanded resolved,
    (batch, expanded) ∈ log
    /\ resolve batch expanded = Ok resolved
    /\ (key, document) ∈ resolved.

(** Every entry of the map is one of the initial models under its
    ["@id"], or was resolved by a call of the log. *)
Definition accounted (models : list json) (log : list (list dep * bool))
    (m : gmap string json) : Prop :=
  forall key document,
    m !! key = Some document ->
    (document ∈ models /\ to_string <$> prop "@id" document = Some key)
    \/ resolved_by log key document.

(** The error was thrown by a resolver call of the log. *)
Definition thrown_by (log : list (list dep * bool)) (e : error) : Prop :=
  exists batch expanded, (batch, expanded) ∈ log /\ resolve batch expanded = Throw e.

End WithResolver.

End Provenance.

(** ** Vocabulary of termination *)

Module Progress.

Import PseudoParser Closure.

(** The keys a batch asks for. *)
Definition keys (batch : list dep) : gset string :=
  list_to_set (dep_to_key <$> batch).

(** Every dependency of the document is a key of [universe]. *)
Definition named_within (universe : gset string) (document : json) : Prop :=
  forall dependencies d,
    _getModelDependencies document = Ok dependencies ->
    d ∈ dependencies ->
    dep_to_key d ∈ universe.

(** The resolver returns at most [width] documents per call, and their
    dependencies are keys of [universe]. *)
Definition bounded_repository
    (resolve : list dep -> bool -> result (list (string * json)))
    (universe : gset string) (width : nat) : Prop :=
  forall batch expanded resolved,
    resolve batch expanded = Ok resolved ->
    (length resolved <= width)%nat
    /\ forall document, document ∈ resolved.*2 -> named_within universe document.

(** The keys of [universe] that are not in the map, counting those the
    batch is waiting for. *)
Definition rank (universe : gset string) (m : gmap string json) (batch : list dep) : nat :=
  size (universe ∖ (dom m ∖ keys batch)).

(** A bound on the number of batches still to be resolved. *)
Fixpoint potential (width : nat) (universe : gset string) (m : gmap string json)
    (tasks : list task) : nat :=
  match tasks with
  | [] => 0
  | Awaiting batch :: rest =>
      (S width ^ rank universe m batch + potential width universe m rest)%nat
  | Rejected _ :: rest => potential width universe m rest
  end.

(** The batches in flight are not empty and ask for keys of [universe],
    none of them [__proto__]. *)
Definition asking_within (universe : gset string) (tasks : list task) : Prop :=
  forall batch,
    Awaiting batch ∈ tasks ->
    batch <> [] /\ keys batch ⊆ universe /\ "__proto__" ∉ keys batch.

End Progress.

(** * Properties *)

(** ** The client façade *)

Section ClientProperties.

Import ModelsRepositoryClient.

Variable resolve : list dep -> bool -> result (list (string * json)).

(** C9: a single DTMI string is wrapped into a one-element array before
    the mode is looked at, so [getModels(d, o)] and [getModels([d], o)]
    complete alike: same map (or same rejection) and same resolver
    calls. *)
Theorem getModels_string_as_singleton fuel configured (dtmi : string) options :
  getModels resolve fuel configured (OneDtmi dtmi) options
  = getModels resolve fuel configured (DtmiArray [dtmi]) options.
Proof. reflexivity. Qed.

(** C1 (what the code does): in [tryFromExpanded] mode, when the expanded
    resolution is rejected, [getModels] does not fall back.  On a
    [RestError] it only logs: the promise fulfils with [undefined]; any
    other error is thrown again.  Either way the resolver has been called
    once, for the expanded documents, and neither the non-expanded
    resolution nor [expand] is run: no map is returned. *)
Theorem getModels_tryFromExpanded_without_fallback fuel configured dtmis options e :
  effective_mode configured options = DEPENDENCY_MODE_TRY_FROM_EXPANDED ->
  resolve (map DStr dtmis) true = Throw e ->
  getModels resolve fuel configured (DtmiArray dtmis) options
  = Some (if isRestError e then Ok None else Throw e, [(map DStr dtmis, true)]).
Proof.
  unfold getModels. intros -> ->. simpl. by destruct (isRestError e).
Qed.

End ClientProperties.

(** The Thermostat request of section 8 against a repository without
    expanded documents: [tryFromExpanded] yields [undefined] where [enabled]
    yields the two models. *)
Lemma getModels_tryFromExpanded_without_fallback_witness :
  ModelsRepositoryClient.getModels Example.resolve 5 "enabled"
    (ModelsRepositoryClient.DtmiArray [Example.thermostat_id]) Example.tryFromExpanded_option
  = Some (Ok None, [([DStr Example.thermostat_id], true)])
  /\ ModelsRepositoryClient.getModels Example.resolve 5 "enabled"
       (ModelsRepositoryClient.DtmiArray [Example.thermostat_id]) Example.enabled_option
     = Some (Ok (Some (<[Example.device_id := Example.device]>
                         {[Example.thermostat_id := Example.thermostat]})),
             [([DStr Example.thermostat_id], false); ([DStr Example.device_id], false)]).
Proof.
  split.
  - apply (getModels_tryFromExpanded_without_fallback Example.resolve 5 "enabled"
             [Example.thermostat_id] Example.tryFromExpanded_option
             (RestError ExpandedNotAvailable)); reflexivity.
  - vm_compute. reflexivity.
Defined.

(** ** The expander of psuedoParser.ts *)

(** Reads the shape of the pool off an equation between a pool with a
    distinguished task and an empty or one-task pool. *)
Ltac pending_shape :=
  repeat match goal with
    | H : ?before ++ _ :: _ = [] |- _ => destruct before; discriminate H
    | H : [] = ?before ++ _ :: _ |- _ => destruct before; discriminate H
    | H : ?before ++ _ :: ?after = [_] |- _ =>
        destruct before as [|? [|]]; [|discriminate H..];
        simpl in H; injection H as ? ?; subst
    | H : [_] = ?before ++ _ :: ?after |- _ =>
        destruct before as [|? [|]]; [|discriminate H..];
        simpl in H; injection H as ? ?; subst
    end;
  try discriminate.

Section ExpanderProperties.

Import PseudoParser Closure.

Variable resolve : list dep -> bool -> result (list (string * json)).

Lemma first_rejected_split tasks e :
  first_rejected tasks = Some e ->
  exists before after, tasks = before ++ Rejected e :: after.
Proof.
  induction tasks as [|[batch|e'] tasks IH]; simpl; intros H.
  - discriminate.
  - destruct (IH H) as (before & after & ->).
    by exists (Awaiting batch :: before), after.
  - injection H as ->. by exists [], tasks.
Qed.

Lemma first_rejected_none tasks e :
  first_rejected tasks = None -> Rejected e ∈ tasks -> False.
Proof.
  induction tasks as [|[batch|e'] tasks IH]; simpl; intros H Hin.
  - by apply elem_of_nil in Hin.
  - apply elem_of_cons in Hin as [Hin|Hin]; [discriminate|auto].
  - discriminate.
Qed.

(** The function follows one of the schedules. *)
Lemma settle_settles fuel tfe st out :
  settle resolve fuel tfe st = Some out -> settles resolve tfe st out.
Proof.
  revert st. induction fuel as [|fuel IH]; intros [m tasks log]; simpl;
    destruct (first_rejected tasks) as [e|] eqn:Hrej.
  - intros [= <-]. destruct (first_rejected_split _ _ Hrej) as (b & a & ->).
    constructor.
  - destruct tasks as [|[batch|e] rest]; [|discriminate|discriminate].
    intros [= <-]. constructor.
  - intros [= <-]. destruct (first_rejected_split _ _ Hrej) as (b & a & ->).
    constructor.
  - destruct tasks as [|[batch|e] rest]; [| |discriminate].
    + intros [= <-]. constructor.
    + destruct (resolve_with_retry resolve batch tfe) as [resolved|e] eqn:Hres.
      * intros H. apply IH in H.
        by apply (settles_resolved resolve tfe m [] batch rest log resolved).
      * intros [= <-].
        by apply (settles_resolve_failed resolve tfe m [] batch rest log e).
Qed.

Lemma expand_from_expands fuel tfe models m log out :
  expand_from resolve fuel models m log tfe = Some out ->
  expands resolve tfe models m log out.
Proof.
  revert m log. induction models as [|model rest IH]; simpl; intros m log.
  - intros [= <-]. constructor.
  - destruct (seed model m) as [seeded|e] eqn:Hseed.
    + unfold _expand.
      destruct (settle _ _ _ _) as [[[expanded|e] log']|] eqn:Hsettle; [| |discriminate];
        apply settle_settles in Hsettle.
      * intros H. eapply expands_next; eauto.
      * intros [= <-]. eapply expands_expand_throws; eauto.
    + intros [= <-]. by constructor.
Qed.

(** More fuel does not change a result. *)
Lemma settle_more_fuel fuel extra tfe st out :
  settle resolve fuel tfe st = Some out ->
  settle resolve (fuel + extra) tfe st = Some out.
Proof.
  revert st. induction fuel as [|fuel IH]; intros [m tasks log]; simpl.
  - destruct (first_rejected tasks) as [e|] eqn:Hrej.
    + intros [= <-]. destruct extra; simpl; by rewrite Hrej.
    + destruct tasks as [|[batch|e] rest]; [|discriminate|discriminate].
      intros [= <-]. by destruct extra.
  - destruct (first_rejected tasks) as [e|]; [done|].
    destruct tasks as [|[batch|e] rest]; [done| |done].
    destruct (resolve_with_retry resolve batch tfe); [|done].
    apply IH.
Qed.

Lemma expand_from_more_fuel fuel extra tfe models m log out :
  expand_from resolve fuel models m log tfe = Some out ->
  expand_from resolve (fuel + extra) models m log tfe = Some out.
Proof.
  revert m log. induction models as [|model rest IH]; simpl; intros m log; [done|].
  destruct (seed model m) as [seeded|e]; [|done].
  unfold _expand.
  destruct (settle resolve fuel _ _) as [[[expanded|e] log']|] eqn:Hsettle; [| |done];
    rewrite (settle_more_fuel _ extra _ _ _ Hsettle); [apply IH|done].
Qed.

(** What is in flight decides the schedules. *)
Lemma settles_nothing_pending tfe m log out :
  settles resolve tfe (State m [] log) out <-> out = (Ok m, log).
Proof.
  split.
  - intros H. inversion H; subst; try done; pending_shape.
  - intros ->. constructor.
Qed.


Lemma expand_from_app fuel tfe front back m log :
  expand_from resolve fuel (front ++ back) m log tfe
  = match expand_from resolve fuel front m log tfe with
    | Some (Ok m', log') => expand_from resolve fuel back m' log' tfe
    | other => other
    end.
Proof.
  revert m log. induction front as [|model front IH]; simpl; intros m log; [done|].
  destruct (seed model m) as [seeded|e]; [|done].
  destruct (_expand resolve fuel model seeded log tfe) as [[[expanded|e] log']|]; auto.
Qed.

Lemma seed_without_id model m :
  prop "@id" model = None -> exists e, seed model m = Throw e.
Proof.
  intros H. unfold seed. rewrite H. destruct model; eauto.
Qed.

Lemma expands_without_id tfe front model back m log out :
  prop "@id" model = None ->
  expands resolve tfe (front ++ model :: back) m log out ->
  exists e log', out = (Throw e, log').
Proof.
  intros Hid. revert m log.
  induction front as [|first front IH]; simpl; intros m log H.
  - destruct (seed_without_id model m Hid) as [e He].
    inversion H; subst; eauto; congruence.
  - inversion H; subst; eauto.
Qed.

(** C10: when an initial model has no ["@id"], [expand] rejects, under
    every schedule of the resolver and whatever the other models are: it
    never returns a map, and once the models before the offending one have
    been expanded it throws at that model. *)
Theorem expand_rejects_model_without_id tfe front model back :
  prop "@id" model = None ->
  (forall out,
      expands resolve tfe (front ++ model :: back) ∅ [] out ->
      exists e log, out = (Throw e, log))
  /\ (forall fuel m log,
        expand resolve fuel (front ++ model :: back) tfe <> Some (Ok m, log))
  /\ (forall fuel m log,
        expand resolve fuel front tfe = Some (Ok m, log) ->
        exists e, expand resolve fuel (front ++ model :: back) tfe = Some (Throw e, log)).
Proof.
  intros Hid. split; [|split].
  - intros out. apply expands_without_id, Hid.
  - intros fuel m log H. apply expand_from_expands in H.
    destruct (expands_without_id _ _ _ _ _ _ _ Hid H) as (e & log' & [=]).
  - intros fuel m log H. unfold expand in *.
    rewrite expand_from_app, H. simpl.
    destruct (seed_without_id model m Hid) as [e ->]. eauto.
Qed.

Lemma assign_plain key value (m : gmap string json) :
  key <> "__proto__" -> assign key value m = <[key := value]> m.
Proof. intros H%String.eqb_neq. unfold assign. by rewrite H. Qed.


(** No DTMI has the name of a property of [Object.prototype]. *)
Lemma dtmi_not_inherited key :
  String.prefix "dtmi:" key = true -> inherited key = false.
Proof.
  intros Hdtmi. apply bool_decide_eq_false. unfold Object_prototype. intros Hin.
  repeat (apply elem_of_cons in Hin as [->|Hin]; [vm_compute in Hdtmi; discriminate|]).
  by apply elem_of_nil in Hin.
Qed.

Lemma has_property_false (m : gmap string json) key :
  has_property m key = false <-> (key ∉ dom m) /\ inherited key = false.
Proof.
  unfold has_property. by rewrite orb_false_iff, bool_decide_eq_false.
Qed.

Lemma seed_with_id model id m :
  prop "@id" model = Some id -> seed model m = Ok (assign (to_string id) model m).
Proof. intros H. unfold seed. rewrite H. by destruct model. Qed.

Lemma dependenciesToResolve_cons m d ds :
  dependenciesToResolve m (d :: ds)
  = if has_property m (dep_to_key d) then dependenciesToResolve m ds
    else d :: dependenciesToResolve m ds.
Proof. unfold dependenciesToResolve. simpl. by destruct (has_property _ _). Qed.

Lemma dependenciesToResolve_present m ds :
  forallb (fun d => bool_decide (dep_to_key d ∈ dom m)) ds = true ->
  dependenciesToResolve m ds = [].
Proof.
  induction ds as [|d ds IH]; [done|].
  intros [Hd Hds]%andb_prop. rewrite dependenciesToResolve_cons.
  unfold has_property. rewrite Hd. simpl. auto.
Qed.

Lemma elem_of_dependenciesToResolve m ds d :
  d ∈ dependenciesToResolve m ds
  <-> d ∈ ds /\ (dep_to_key d ∉ dom m) /\ inherited (dep_to_key d) = false.
Proof.
  unfold dependenciesToResolve. rewrite list_elem_of_In, filter_In, <- list_elem_of_In.
  by rewrite negb_true_iff, has_property_false.
Qed.



Lemma expand_from_closed_in_order fuel tfe models m log :
  Forall (fun model => to_string <$> prop "@id" model <> Some "__proto__") models ->
  closed_in_order (dom m) models = true ->
  expand_from resolve fuel models m log tfe
  = Some (Ok (foldl (fun m model =>
                       match prop "@id" model with
                       | Some id => <[to_string id := model]> m
                       | None => m
                       end) m models), log)
  /\ forall out,
      expands resolve tfe models m log out ->
      out = (Ok (foldl (fun m model =>
                          match prop "@id" model with
                          | Some id => <[to_string id := model]> m
                          | None => m
                          end) m models), log).
Proof.
  revert m log. induction models as [|model rest IH]; simpl; intros m log.
  - intros _ _. split; [done|]. by inversion 1.
  - intros [Hplain Hplains]%Forall_cons.
    destruct (prop "@id" model) as [id|] eqn:Hid; [|done].
    destruct (_getModelDependencies model) as [ds|e] eqn:Hdeps; [|done].
    intros [Hds Hrest]%andb_prop.
    rewrite <- dom_insert_L with (x := model) in Hds, Hrest.
    assert (Hstart : start (<[to_string id := model]> m) model = []).
    { unfold start. by rewrite Hdeps, (dependenciesToResolve_present _ _ Hds). }
    destruct (IH _ log Hplains Hrest) as [IHf IHr].
    assert (Hseed : seed model m = Ok (<[to_string id := model]> m)).
    { rewrite (seed_with_id _ _ _ Hid), assign_plain; [done|].
      intros Hproto. apply Hplain. simpl. by rewrite Hproto. }
    rewrite Hseed. unfold _expand, entered.
    rewrite Hstart. simpl. rewrite app_nil_r. split.
    + destruct fuel; simpl; apply IHf.
    + intros out H.
      inversion H as [| ? ? ? ? ? Hs | ? ? ? ? ? ? ? Hs Hrun | ? ? ? ? ? ? ? ? Hs Hrun Hnext];
        subst; rewrite Hseed in Hs; try discriminate;
        injection Hs as <-; unfold entered in Hrun; rewrite Hstart in Hrun;
        simpl in Hrun; rewrite app_nil_r in Hrun;
        apply settles_nothing_pending in Hrun; try discriminate.
      simplify_eq. by apply IHr.
Qed.

(** C6 (amended): when every model of the list has an ["@id"], other than
    [__proto__] (which names no key an assignment can create), and each of
    its dependencies is its own ["@id"] or that of a model before it in
    the list, [expand] makes no resolver call and returns exactly the
    input set, under every schedule and with any fuel. *)
Theorem expand_closed_in_order tfe models :
  Forall (fun model => to_string <$> prop "@id" model <> Some "__proto__") models ->
  closed_in_order ∅ models = true ->
  (forall fuel, expand resolve fuel models tfe = Some (Ok (seeds models), []))
  /\ (forall out, expands resolve tfe models ∅ [] out -> out = (Ok (seeds models), [])).
Proof.
  intros Hplain H.
  rewrite <- (dom_empty_L (D := gset string) (M := gmap string) (A := json)) in H.
  split.
  - intros fuel. by apply expand_from_closed_in_order.
  - by apply (expand_from_closed_in_order 0).
Qed.






Lemma assoc_Some_elem {A : Type} k (entries : list (string * A)) v :
  assoc k entries = Some v -> (k, v) ∈ entries.
Proof.
  induction entries as [|[k' v'] entries IH]; simpl; [done|].
  destruct (String.eqb_spec k k') as [->|Hne].
  - intros [= ->]. left.
  - intros H. right. auto.
Qed.

Lemma assoc_is_Some {A : Type} k (entries : list (string * A)) :
  k ∈ entries.*1 -> is_Some (assoc k entries).
Proof.
  induction entries as [|[k' v'] entries IH]; simpl.
  - intros H. by apply elem_of_nil in H.
  - destruct (String.eqb_spec k k') as [->|Hne]; [eauto|].
    intros [H|H]%elem_of_cons; [done|auto].
Qed.

Lemma merge_keys (resolved : list (string * json)) (keys : list string)
    (m : gmap string json) :
  (forall k, k ∈ keys -> k ∈ resolved.*1) ->
  let m' :=
    foldl (fun m key =>
             match assoc key resolved with
             | Some model => <[key := model]> m
             | None => m
             end) m keys in
  dom m' = dom m ∪ list_to_set keys
  /\ forall k document,
      m' !! k = Some document -> m !! k = Some document \/ (k, document) ∈ resolved.
Proof.
  revert m. induction keys as [|key keys IH]; simpl; intros m Hkeys.
  - split; [set_solver|auto].
  - destruct (assoc_is_Some key resolved) as [model Hmodel]; [apply Hkeys; left|].
    rewrite Hmodel.
    destruct (IH (<[key := model]> m)) as [Hdom Hlook]; [intros; apply Hkeys; by right|].
    split.
    + rewrite Hdom, dom_insert_L. set_solver.
    + intros k document H. apply Hlook in H as [H|H]; [|by right].
      destruct (decide (key = k)) as [->|Hne].
      * rewrite lookup_insert_eq in H. injection H as <-. right.
        by apply assoc_Some_elem.
      * rewrite lookup_insert_ne in H by done. by left.
Qed.

Lemma merge_assigned (resolved : list (string * json)) (keys : list string)
    (m : gmap string json) :
  (forall k, k ∈ keys -> k ∈ resolved.*1) ->
  let m' :=
    foldl (fun m key =>
             match assoc key resolved with
             | Some model => assign key model m
             | None => m
             end) m keys in
  dom m' = dom m ∪ (list_to_set keys ∖ {["__proto__"]})
  /\ forall k document,
      m' !! k = Some document -> m !! k = Some document \/ (k, document) ∈ resolved.
Proof.
  revert m. induction keys as [|key keys IH]; simpl; intros m Hkeys.
  - split; [set_solver|auto].
  - destruct (assoc_is_Some key resolved) as [model Hmodel]; [apply Hkeys; left|].
    rewrite Hmodel.
    destruct (IH (assign key model m)) as [Hdom Hlook]; [intros; apply Hkeys; by right|].
    unfold assign in *. destruct (String.eqb_spec key "__proto__") as [->|Hne].
    + split; [rewrite Hdom; set_solver|done].
    + split.
      * rewrite Hdom, dom_insert_L. set_solver.
      * intros k document H. apply Hlook in H as [H|H]; [|by right].
        destruct (decide (key = k)) as [->|Hother].
        -- rewrite lookup_insert_eq in H. injection H as <-. right.
           by apply assoc_Some_elem.
        -- rewrite lookup_insert_ne in H by done. by left.
Qed.

(** The own keys after [merge]: [__proto__] is not among the new ones. *)
Lemma merge_spec (resolved : list (string * json)) (m : gmap string json) :
  dom (merge resolved m) = dom m ∪ (list_to_set resolved.*1 ∖ {["__proto__"]})
  /\ forall k document,
      merge resolved m !! k = Some document ->
      m !! k = Some document \/ (k, document) ∈ resolved.
Proof. by apply merge_assigned. Qed.

Lemma merge_answers batch expanded resolved (m : gmap string json) d :
  answers_requests resolve ->
  plain_resolver resolve ->
  resolve batch expanded = Ok resolved ->
  d ∈ batch ->
  dep_to_key d ∈ dom (merge resolved m).
Proof.
  intros Hanswers Hplain Hcall Hd.
  destruct (merge_spec resolved m) as [-> _].
  pose proof (Hanswers _ _ _ Hcall d Hd) as Hkey.
  apply elem_of_union_r, elem_of_difference. split; [by apply elem_of_list_to_set|].
  apply list_elem_of_fmap in Hkey as ([key document] & Heq & Hin). simpl in Heq.
  destruct (Hplain _ _ _ _ _ Hcall Hin) as [Hproto _]. set_solver.
Qed.

Lemma resolve_with_retry_Ok tfe batch resolved :
  resolve_with_retry resolve batch tfe = Ok resolved ->
  exists expanded, resolve batch expanded = Ok resolved.
Proof.
  unfold resolve_with_retry.
  destruct (resolve batch tfe) as [r|e] eqn:H.
  - intros [= <-]. eauto.
  - destruct (isRestError e); [eauto|discriminate].
Qed.

Lemma covered_start m tasks document :
  plain_dependencies document ->
  covered m (tasks ++ start m document) document.
Proof.
  intros Hplain. unfold covered, start.
  destruct (_getModelDependencies document) as [ds|e] eqn:Hds.
  - intros d Hd. destruct (decide (dep_to_key d ∈ dom m)) as [|Hout]; [by left|right].
    assert (Hin : d ∈ dependenciesToResolve m ds).
    { apply elem_of_dependenciesToResolve. eauto. }
    destruct (dependenciesToResolve m ds) as [|d0 batch]; [by apply elem_of_nil in Hin|].
    exists (d0 :: batch). split; [set_solver|done].
  - set_solver.
Qed.

Lemma covered_weaken m m' tasks tasks' document :
  covered m tasks document ->
  dom m ⊆ dom m' ->
  (forall e, Rejected e ∈ tasks -> Rejected e ∈ tasks') ->
  (forall batch, Awaiting batch ∈ tasks ->
                 Awaiting batch ∈ tasks'
                 \/ forall d, d ∈ batch -> dep_to_key d ∈ dom m') ->
  covered m' tasks' document.
Proof.
  unfold covered. intros H Hdom Hrej Hbatch.
  destruct (_getModelDependencies document) as [ds|e]; [|auto].
  intros d Hd. destruct (H d Hd) as [Hin|(batch & Hin & Hdb)]; [left; set_solver|].
  destruct (Hbatch batch Hin) as [Hstill|Hdone]; [right; eauto|left; auto].
Qed.

Lemma start_in_spawn m resolved document task :
  document ∈ resolved.*2 -> task ∈ start m document -> task ∈ spawn m resolved.
Proof.
  intros Hdoc Htask. unfold spawn. apply list_elem_of_In, in_concat.
  exists (start m document). split; [|by apply list_elem_of_In].
  apply in_map. by apply list_elem_of_In.
Qed.

Lemma invariant_resumed tfe m before batch after log resolved :
  answers_requests resolve ->
  plain_resolver resolve ->
  invariant (State m (before ++ Awaiting batch :: after) log) ->
  resolve_with_retry resolve batch tfe = Ok resolved ->
  invariant (resumed resolve tfe m (before ++ after) log batch resolved).
Proof.
  intros Hanswers Hplain Hinv Hres key document. unfold resumed. simpl. intros Hlook.
  destruct (merge_spec resolved m) as [Hdom Hfrom].
  destruct (resolve_with_retry_Ok _ _ _ Hres) as [expanded Hresolve].
  destruct (Hfrom _ _ Hlook) as [Hold|Hnew].
  - eapply covered_weaken; [exact (Hinv key document Hold)|..]; simpl.
    + rewrite Hdom. set_solver.
    + intros e. rewrite !elem_of_app, elem_of_cons. naive_solver.
    + intros batch'. rewrite !elem_of_app, elem_of_cons.
      intros [Hin|[[= ->]|Hin]]; [left; tauto| |left; tauto].
      right. intros d Hd. by eapply merge_answers.
  - destruct (Hplain _ _ _ _ _ Hresolve Hnew) as [_ [_ Hdocument]].
    apply (list_elem_of_fmap_2 snd) in Hnew.
    eapply covered_weaken; [by apply (covered_start _ [] document)|done|..]; simpl.
    + intros e He. apply elem_of_app. right. by eapply start_in_spawn.
    + intros batch' Hin. left. apply elem_of_app. right. by eapply start_in_spawn.
Qed.

Lemma settles_closed tfe st m' log' :
  answers_requests resolve ->
  plain_resolver resolve ->
  settles resolve tfe st (Ok m', log') ->
  invariant st ->
  closed m' /\ dom (modelMap st) ⊆ dom m'.
Proof.
  intros Hanswers Hplain H. remember (Ok m', log') as out eqn:Hout. revert Hout.
  induction H as [m log|m before e after log|m before batch after log e Hres
                  |m before batch after log resolved out Hres Hrun IH];
    intros Hout Hinv; try discriminate.
  - injection Hout as -> ->. split; [|done].
    intros key document Hlook. specialize (Hinv key document Hlook).
    unfold covered in Hinv. simpl in Hinv.
    destruct (_getModelDependencies document) as [ds|e].
    + exists ds. split; [done|]. intros d Hd.
      destruct (Hinv d Hd) as [|(batch & Hin & _)]; [done|by apply elem_of_nil in Hin].
    + by apply elem_of_nil in Hinv.
  - destruct (IH Hout) as [Hclosed Hdom]; [by apply invariant_resumed|].
    split; [done|]. simpl in *.
    destruct (merge_spec resolved m) as [Hmerge _]. set_solver.
Qed.

Lemma seed_Ok model m seeded :
  seed model m = Ok seeded ->
  exists id, prop "@id" model = Some id /\ seeded = assign (to_string id) model m.
Proof.
  unfold seed. destruct (prop "@id" model) as [id|] eqn:Hid.
  - destruct model; try discriminate; intros [= <-]; eauto.
  - by destruct model.
Qed.

Lemma invariant_entered tfe model id m log :
  closed m ->
  plain_dependencies model ->
  invariant (entered tfe model (<[to_string id := model]> m) log).
Proof.
  intros Hclosed Hplain key document. unfold entered. simpl. intros Hlook.
  destruct (decide (to_string id = key)) as [<-|Hne].
  - rewrite lookup_insert_eq in Hlook. injection Hlook as <-.
    by apply (covered_start _ []).
  - rewrite lookup_insert_ne in Hlook by done.
    destruct (Hclosed _ _ Hlook) as (ds & Hds & Hin).
    unfold covered. rewrite Hds. intros d Hd. left.
    rewrite dom_insert_L. set_solver.
Qed.

Lemma expands_closed tfe models m log m' log' :
  answers_requests resolve ->
  plain_resolver resolve ->
  (forall model, model ∈ models -> plain_model model) ->
  expands resolve tfe models m log (Ok m', log') ->
  closed m ->
  closed m' /\ dom m ⊆ dom m' /\ identifiers models ⊆ dom m'.
Proof.
  intros Hanswers Hplain Hmodels H. remember (Ok m', log') as out eqn:Hout.
  revert Hmodels Hout.
  induction H as [m log|model rest m log e Hseed|model rest m log seeded e log1 Hseed Hrun
                  |model rest m log seeded expanded log1 out Hseed Hrun Hrest IH];
    intros Hmodels Hout Hclosed; try discriminate.
  - injection Hout as -> ->. unfold identifiers. simpl. set_solver.
  - destruct (seed_Ok _ _ _ Hseed) as (id & Hid & ->).
    destruct (Hmodels model) as [Hproto Hdeps]; [by left|].
    rewrite Hid in Hproto. simpl in Hproto.
    rewrite assign_plain in Hrun by congruence.
    destruct (settles_closed _ _ _ _ Hanswers Hplain Hrun) as [Hexpanded Hdom];
      [by apply invariant_entered|].
    destruct (IH ltac:(intros; apply Hmodels; by right) Hout Hexpanded)
      as (Hfinal & Hgrow & Hids).
    split; [done|]. simpl in Hdom. rewrite dom_insert_L in Hdom.
    split; [set_solver|].
    unfold identifiers in *. simpl. rewrite Hid. simpl. set_solver.
Qed.

(** The expander of psuedoParser.ts keeps the invariant of the model map.
    The initial models and the documents the resolver returns are plain:
    no dependency has the name of a property of [Object.prototype] (which
    [in] would find in any map) and nothing is identified or returned as
    [__proto__] (which an assignment cannot create).  Then, when the
    resolver answers the requests it fulfils, a map returned by [expand],
    under any schedule, has the ["@id"] of every initial model among its
    keys and is closed: for each of its documents, the key of every
    dependency [_getModelDependencies] computes is a key of the map, and
    so is every key reachable from the initial models along those
    dependencies. *)
Theorem expand_returns_closed_map tfe models m log :
  answers_requests resolve ->
  plain_resolver resolve ->
  (forall model, model ∈ models -> plain_model model) ->
  expands resolve tfe models ∅ [] (Ok m, log) ->
  closed m
  /\ identifiers models ⊆ dom m
  /\ forall key, reachable m models key -> key ∈ dom m.
Proof.
  intros Hanswers Hplain Hmodels Hrun.
  destruct (expands_closed _ _ _ _ _ _ Hanswers Hplain Hmodels Hrun)
    as (Hclosed & _ & Hids).
  { intros key document Hlook. by rewrite lookup_empty in Hlook. }
  split; [done|split; [done|]].
  intros key Hreach.
  induction Hreach as [key Hin|key document ds d _ IH Hlook Hds Hd]; [set_solver|].
  destruct (Hclosed _ _ Hlook) as (ds' & Hds' & Hall).
  rewrite Hds in Hds'. injection Hds' as <-. auto.
Qed.

End ExpanderProperties.

(** The Thermostat followed by a model without ["@id"]: the Device is
    resolved for the Thermostat, then [expand] throws. *)
Lemma expand_rejects_model_without_id_witness :
  exists e,
    PseudoParser.expand Example.resolve 5
      ([Example.thermostat] ++ JObj [("@type", JStr "Interface")] :: [Example.device]) false
    = Some (Throw e, [([DStr Example.device_id], false)]).
Proof.
  destruct (expand_rejects_model_without_id Example.resolve false [Example.thermostat]
              (JObj [("@type", JStr "Interface")]) [Example.device] eq_refl)
    as (_ & _ & H).
  eapply H. vm_compute. reflexivity.
Defined.


(** Device before Thermostat: nothing is fetched, even with no fuel. *)
Lemma expand_closed_in_order_witness :
  PseudoParser.expand Example.resolve 0 [Example.device; Example.thermostat] false
  = Some (Ok (Closure.seeds [Example.device; Example.thermostat]), []).
Proof.
  destruct (expand_closed_in_order Example.resolve false
              [Example.device; Example.thermostat]) as [H _].
  - repeat constructor; discriminate.
  - vm_compute. reflexivity.
  - exact (H 0).
Defined.

(** C6 (as stated) fails: Thermostat before Device is a list that contains
    its own closure, yet [expand] asks the resolver for the Device; and when
    the repository does not hold the Device, [expand] rejects instead of
    returning the input set. *)
Lemma expand_closed_list_counterexample :
  Closure.closure_contained [Example.thermostat; Example.device] = true
  /\ PseudoParser.expand Example.resolve 5 [Example.thermostat; Example.device] false
     = Some (Ok (Closure.seeds [Example.thermostat; Example.device]),
             [([DStr Example.device_id], false)])
  /\ PseudoParser.expand Example.resolve_without_device 5
       [Example.thermostat; Example.device] false
     = Some (Throw (ResolverError NotFound), [([DStr Example.device_id], false)]).
Proof.
  split; [|split]; vm_compute; reflexivity.
Qed.

(** ** Direct dependencies *)

Section DirectDependencies.

Import PseudoParser Closure.

Lemma with_field_assoc {A : Type} k (absent : A) present fields :
  with_field k absent present fields
  = match assoc k fields with
    | Some v => present v
    | None => absent
    end.
Proof.
  induction fields as [|[k' v] fields IH]; simpl; [done|].
  by destruct (String.eqb k k').
Qed.

Lemma for_each_Ok {A B : Type} (visit : A -> result (list B)) l pushed :
  for_each visit l = Ok pushed ->
  (forall x, x ∈ l -> exists ys, visit x = Ok ys)
  /\ forall y, y ∈ pushed <-> exists x ys, x ∈ l /\ visit x = Ok ys /\ y ∈ ys.
Proof.
  revert pushed. induction l as [|x l IH]; simpl; intros pushed.
  - intros [= <-]. split; [by intros x ?%elem_of_nil|].
    intros y. split; [by intros ?%elem_of_nil|].
    by intros (? & ? & ?%elem_of_nil & _).
  - destruct (visit x) as [ys|] eqn:Hx; [|done].
    destruct (for_each visit l) as [more|] eqn:Hl; [|done].
    destruct (IH more eq_refl) as [IHeach IHelem].
    intros [= <-]. split.
    + intros x' [->|Hin]%elem_of_cons; eauto.
    + intros y. rewrite elem_of_app, IHelem. split.
      * intros [Hy|(x' & ys' & Hin & Hv & Hy)].
        -- exists x, ys. split; [left|done].
        -- exists x', ys'. split; [by right|done].
      * intros (x' & ys' & [->|Hin]%elem_of_cons & Hv & Hy).
        -- left. rewrite Hx in Hv. by injection Hv as <-.
        -- right. eauto.
Qed.

Lemma elem_of_array_from_set seen l s :
  DStr s ∈ array_from_set seen l <-> DStr s ∈ l /\ s ∉ seen.
Proof.
  revert seen. induction l as [|[s'|a] l IH]; simpl; intros seen.
  - split; [by intros ?%elem_of_nil|by intros [?%elem_of_nil _]].
  - case_bool_decide as Hs.
    + rewrite IH, elem_of_cons. split; [naive_solver|].
      intros [[[= ->]|Hin] Hd]; done.
    + rewrite !elem_of_cons, IH, elem_of_cons.
      destruct (decide (s = s')) as [->|Hne]; naive_solver.
  - rewrite !elem_of_cons, IH. naive_solver.
Qed.

Lemma array_from_set_strings_once seen l :
  NoDup (strings_of (array_from_set seen l))
  /\ forall s, s ∈ strings_of (array_from_set seen l) -> s ∉ seen.
Proof.
  revert seen. induction l as [|[s|a] l IH]; simpl; intros seen.
  - split; [constructor|by intros s ?%elem_of_nil].
  - case_bool_decide as Hs; [apply IH|].
    destruct (IH (s :: seen)) as [Hnodup Hfresh]. unfold strings_of. simpl.
    fold (strings_of (array_from_set (s :: seen) l)). split.
    + constructor; [|done]. intros Hin. apply Hfresh in Hin. set_solver.
    + intros s' [->|Hin]%elem_of_cons; [done|]. apply Hfresh in Hin. set_solver.
  - apply IH.
Qed.

Lemma component_schema_Ok element pushed :
  component_schema element = Ok pushed ->
  forall d,
    d ∈ pushed
    <-> exists s,
        d = DStr s
        /\ prop "@type" element = Some (JStr "Component")
        /\ prop "schema" element = Some (JStr s)
        /\ s <> "".
Proof.
  unfold component_schema. intros H d.
  assert (Hnone : pushed = [] -> (d ∈ pushed <-> False))
    by (intros ->; split; [by intros ?%elem_of_nil|done]).
  destruct element as [| | | | |fields]; simpl in *; try discriminate;
    try (injection H as <-; rewrite Hnone by done; naive_solver).
  destruct (assoc "@type" fields) as [[| | |ty| |]|].
  all: try (injection H as <-; rewrite Hnone by done; naive_solver).
  destruct (String.eqb_spec ty "Component") as [Heq|Hty].
  2: { injection H as <-; rewrite Hnone by done; naive_solver. }
  subst ty.
  destruct (assoc "schema" fields) as [[| | |schema| |]|].
  all: try (injection H as <-; rewrite Hnone by done; naive_solver).
  destruct (String.eqb_spec schema "") as [Heq|Hschema]; injection H as <-.
  - rewrite Hnone by done. naive_solver.
  - rewrite list_elem_of_singleton. naive_solver.
Qed.

Lemma contents_dependencies_Ok fields from_contents s :
  contents_dependencies fields = Ok from_contents ->
  DStr s ∈ from_contents <-> component_schema_of (JObj fields) s.
Proof.
  unfold contents_dependencies, component_schema_of. simpl.
  destruct (assoc "contents" fields) as [[| | | |contents|]|]; try done.
  - intros [Heach Helem]%for_each_Ok. rewrite Helem. split.
    + intros (element & ys & Hin & Hvisit & Hs).
      apply (component_schema_Ok _ _ Hvisit) in Hs as (s' & [= <-] & Hs).
      exists contents, element. naive_solver.
    + intros (contents' & element & [= <-] & Hin & Hs).
      destruct (Heach _ Hin) as [ys Hvisit]. exists element, ys.
      split; [done|split; [done|]].
      apply (component_schema_Ok _ _ Hvisit). eauto.
  - intros [= <-]. split; [by intros ?%elem_of_nil|].
    by intros (? & ? & ? & _).
Qed.

Lemma extends_dependencies_Ok recur extends from_extends s :
  extends_dependencies recur extends = Ok from_extends ->
  DStr s ∈ from_extends
  <-> extends = JStr s \/ exists elements, extends = JArr elements /\ JStr s ∈ elements.
Proof.
  unfold extends_dependencies.
  destruct extends as [| | |s'|elements|];
    try (intros [= <-]; split; [by intros ?%elem_of_nil|naive_solver]).
  - intros [= <-]. rewrite list_elem_of_singleton. naive_solver.
  - intros [_ Helem]%for_each_Ok. rewrite Helem. split.
    + intros (element & ys & Hin & Hvisit & Hs). right. exists elements.
      split; [done|]. unfold extends_element in Hvisit.
      destruct element as [| | |s'| |]; try destruct (recur _);
        simplify_eq; try (by apply elem_of_nil in Hs);
        apply list_elem_of_singleton in Hs; by simplify_eq.
    + intros [?|(? & [= <-] & Hin)]; [done|].
      exists (JStr s), [DStr s]. split; [done|split; [done|left]].
Qed.

(** The strings among the direct dependencies of a model are the schemas
    of its Components and the strings it extends, each once, whatever the
    inline objects among what it extends contribute. *)
Theorem string_dependencies fields dependencies :
  _getModelDependencies (JObj fields) = Ok dependencies ->
  NoDup (strings_of dependencies)
  /\ forall s,
      DStr s ∈ dependencies
      <-> component_schema_of (JObj fields) s \/ extends_string_of (JObj fields) s.
Proof.
  simpl. rewrite with_field_assoc.
  destruct (contents_dependencies fields) as [from_contents|] eqn:Hcontents; [|done].
  assert (Hextends : forall from_extends s,
             match assoc "extends" fields with
             | Some v => extends_dependencies _getModelDependencies v
             | None => Ok []
             end = Ok from_extends ->
             DStr s ∈ from_extends <-> extends_string_of (JObj fields) s).
  { intros from_extends s. unfold extends_string_of. simpl.
    destruct (assoc "extends" fields) as [extends|].
    - intros H. rewrite (extends_dependencies_Ok _ _ _ _ H). naive_solver.
    - intros [= <-]. split; [by intros ?%elem_of_nil|naive_solver]. }
  destruct (match assoc "extends" fields with
            | Some v => extends_dependencies _getModelDependencies v
            | None => Ok []
            end) as [from_extends|] eqn:Hfrom; [|done].
  intros [= <-]. split; [apply array_from_set_strings_once|].
  intros s. rewrite elem_of_array_from_set, elem_of_app.
  rewrite (contents_dependencies_Ok _ _ _ Hcontents), (Hextends _ _ eq_refl).
  set_solver.
Qed.

End DirectDependencies.

(** C4 (what the code does): an inline object among the elements of
    [extends] does not contribute its dependencies as individual entries.
    Line 88 pushes the array returned by the recursive call, so the model
    that extends an inline interface extending Device has a single
    dependency, the array [[Device]], and Device itself is not among its
    dependencies; two such inline objects give two arrays, which the [Set]
    of line 94 keeps apart, next to the string. *)
Theorem inline_extends_pushed_as_array :
  PseudoParser._getModelDependencies Example.with_inline_extends
  = Ok [DArr [DStr Example.device_id]]
  /\ (DStr Example.device_id ∉ [DArr [DStr Example.device_id]])
  /\ PseudoParser._getModelDependencies
       (JObj [("@id", JStr "dtmi:com:example:Sensor;2");
              ("extends",
               JArr [JObj [("extends", JStr Example.device_id)];
                     JObj [("extends", JStr Example.device_id)];
                     JStr Example.device_id])])
     = Ok [DArr [DStr Example.device_id]; DArr [DStr Example.device_id];
           DStr Example.device_id].
Proof.
  split; [reflexivity|split; [|reflexivity]].
  intros H. apply list_elem_of_singleton in H. discriminate.
Qed.

(** ** The synchronous expander of src/unnamed/part_001 *)

Section SyncExpanderProperties.

Import SyncPseudoParser.

Variable resolve : list dep -> result resolution.

(** The synchronous [expand] returns the map it seeded: no call of
    [_expand] writes to it. *)
Lemma sync_expand_from_returns_seeds fuel models m0 m :
  expand_from resolve fuel models m0 = Some (Ok m) ->
  m = foldl (fun acc model =>
               match prop "@id" model with
               | Some id => assign (to_string id) model acc
               | None => assign "undefined" model acc
               end) m0 models.
Proof.
  revert m0. induction models as [|model rest IH]; simpl; intros m0.
  - by intros [= <-].
  - unfold seed.
    destruct model as [| | | | |fields]; try discriminate; simpl;
      try destruct (assoc "@id" fields);
      match goal with
      | |- context [_expand resolve fuel ?model ?seeded] =>
          destruct (_expand resolve fuel model seeded) as [[[]|]|]
      end; try discriminate; apply IH.
Qed.

End SyncExpanderProperties.

(** C2 (what the code of part_001 does): the Thermostat depends on the
    Device, the resolver resolves the Device, and [expand([Thermostat])]
    returns without error a map whose only key is the Thermostat. *)
Theorem sync_expand_omits_dependency :
  SyncPseudoParser._getModelDependencies Example.thermostat = Ok [DStr Example.device_id]
  /\ (exists resolved,
        Example.resolve_sync [DStr Example.device_id] = Ok resolved
        /\ SyncPseudoParser.values resolved = Some [Example.device])
  /\ SyncPseudoParser.expand Example.resolve_sync 5 [Example.thermostat]
     = Some (Ok {[Example.thermostat_id := Example.thermostat]})
  /\ ({[Example.thermostat_id := Example.thermostat]} : gmap string json)
       !! Example.device_id = None.
Proof.
  split; [reflexivity|split; [|split]].
  - eexists. split; reflexivity.
  - vm_compute. reflexivity.
  - reflexivity.
Qed.





(** ** The resolver *)

Section MapM.

Context {A B : Type} (f : A -> result B).

Lemma mapM_Ok l l' :
  mapM f l = Ok l' <-> Forall2 (fun x y => f x = Ok y) l l'.
Proof.
  revert l'. induction l as [|x l IH]; intros l'; cbn.
  - split; [intros [= <-]; constructor|by inversion 1].
  - destruct (f x) as [y|e] eqn:Hx; cbn.
    + destruct (mapM f l) as [k|e] eqn:Hl; cbn.
      * split.
        -- intros [= <-]. constructor; [done|by apply IH].
        -- intros H. inversion H as [|? y' ? k' Hy Hk]; subst.
           apply IH in Hk. rewrite Hx in Hy. by simplify_eq.
      * split; [done|]. intros H. inversion H as [|? y' ? k' Hy Hk]; subst.
        by apply IH in Hk.
    + split; [done|]. intros H. inversion H as [|? y' ? k' Hy Hk]; subst.
      rewrite Hx in Hy. discriminate.
Qed.

Lemma mapM_Throw l e :
  mapM f l = Throw e -> exists x, x ∈ l /\ f x = Throw e.
Proof.
  induction l as [|x l IH]; cbn; [done|].
  destruct (f x) as [y|e'] eqn:Hx; cbn.
  - destruct (mapM f l) as [k|e'] eqn:Hl; cbn; [done|].
    intros [= ->]. destruct IH as (x' & Hin & Hx'); [done|].
    exists x'. split; [by right|done].
  - intros [= ->]. exists x. split; [left|done].
Qed.

Lemma mapM_fails l x e :
  x ∈ l -> f x = Throw e -> exists e', mapM f l = Throw e'.
Proof.
  intros Hin Hx. destruct (mapM f l) as [l'|e'] eqn:H; [|eauto].
  apply mapM_Ok in H. apply list_elem_of_lookup in Hin as [i Hi].
  destruct (Forall2_lookup_l _ _ _ _ _ H Hi) as (y & _ & Hy). congruence.
Qed.

End MapM.

Section ResolverProperties.

Import Addressing Resolver Closure ModelsRepositoryClient.

Variable segment_char : ascii -> bool.
Variable fetch : string -> fetched.
Variable parse : string -> option json.

Lemma set_entry_elem {A : Type} key (value : A) entries k v :
  (k, v) ∈ set_entry key value entries -> (k, v) = (key, value) \/ (k, v) ∈ entries.
Proof.
  induction entries as [|[k' v'] entries IH]; simpl.
  - intros H%list_elem_of_singleton. by left.
  - destruct (String.eqb_spec key k') as [->|Hne]; rewrite !elem_of_cons; naive_solver.
Qed.

Lemma set_entry_keys {A : Type} key (value : A) entries k :
  k ∈ (set_entry key value entries).*1 <-> k = key \/ k ∈ entries.*1.
Proof.
  induction entries as [|[k' v'] entries IH]; simpl.
  - rewrite list_elem_of_singleton. set_solver.
  - destruct (String.eqb_spec key k') as [->|Hne]; simpl; set_solver.
Qed.

Lemma collected_entries {A : Type} (models acc : list (string * A)) :
  let entries := foldl (fun entries model => set_entry model.1 model.2 entries) acc models in
  (forall k v, (k, v) ∈ entries -> (k, v) ∈ acc \/ (k, v) ∈ models)
  /\ (forall k, k ∈ entries.*1 <-> k ∈ acc.*1 \/ k ∈ models.*1).
Proof.
  revert acc. induction models as [|[key value] models IH]; simpl; intros acc.
  - split; [auto|]. intros k. rewrite elem_of_nil. tauto.
  - destruct (IH (set_entry key value acc)) as [Helem Hkeys]. split.
    + intros k v [H|H]%Helem; [|right; by right].
      apply set_entry_elem in H as [->|H]; [right; left|by left].
    + intros k. rewrite Hkeys, set_entry_keys, elem_of_cons. tauto.
Qed.

(** One document through steps 1 to 4. *)
Lemma resolved_from_steps expanded requested tgt fetched_bytes document model :
  target segment_char expanded requested = Ok tgt ->
  payload (tgt.1, fetch tgt.2) = Ok fetched_bytes ->
  parsed parse fetched_bytes = Ok document ->
  verified document = Ok model ->
  requested = DStr model.1
  /\ resolved_from segment_char fetch parse expanded model.1 model.2.
Proof.
  unfold target, payload, parsed, verified, resolved_from.
  destruct requested as [dtmi|]; [|done]. simpl.
  destruct (if expanded then _ else _) as [path|] eqn:Hpath; [|done]. cbn.
  intros [= <-]. simpl. destruct (fetch path) as [bytes| |] eqn:Hfetch; [|done..].
  intros [= <-]. simpl. destruct (parse bytes) as [doc|] eqn:Hparse; [|done].
  destruct (prop "@id" doc) as [id|] eqn:Hid; [|done].
  intros [= <-]. simpl. rewrite Hid. destruct id as [| | |id| |]; try done.
  destruct (String.eqb_spec (lower id) (lower dtmi)) as [Hlower|]; [|done].
  intros [= <-]. simpl. split; [done|]. exists path, bytes, id. by rewrite Hid.
Qed.

(** A fulfilled resolution collects, in request order, one document per
    requested DTMI. *)
Lemma resolve_Ok dtmis expanded resolved :
  Resolver.resolve segment_char fetch parse dtmis expanded = Ok resolved ->
  exists models,
    resolved = foldl (fun entries model => set_entry model.1 model.2 entries) [] models
    /\ Forall2 (fun requested model =>
                  requested = DStr model.1
                  /\ resolved_from segment_char fetch parse expanded model.1 model.2)
               dtmis models.
Proof.
  unfold Resolver.resolve.
  destruct (mapM (target segment_char expanded) dtmis) as [targets|] eqn:Ht; [|done]. cbn.
  destruct (expanded && _); [done|].
  destruct (mapM payload _) as [payloads|] eqn:Hp; [|done]. cbn.
  destruct (mapM (parsed parse) payloads) as [documents|] eqn:Hd; [|done]. cbn.
  destruct (mapM verified documents) as [models|] eqn:Hv; [|done]. cbn.
  intros [= <-]. exists models. split; [done|].
  apply mapM_Ok in Ht, Hp, Hd, Hv.
  revert payloads documents models Hp Hd Hv.
  induction Ht as [|requested tgt dtmis targets Hfirst Hrest IH];
    intros payloads documents models Hp Hd Hv; simpl in Hp.
  - inversion Hp; subst. inversion Hd; subst. inversion Hv; subst. constructor.
  - inversion Hp as [|? p ? payloads' Hp1 Hp2]; subst.
    inversion Hd as [|? d ? documents' Hd1 Hd2]; subst.
    inversion Hv as [|? m ? models' Hv1 Hv2]; subst.
    constructor; [|by eapply IH].
    by eapply resolved_from_steps.
Qed.

(** The resolver of section 4.3 answers the requests it fulfils. *)
Lemma resolve_answers_requests :
  answers_requests (Resolver.resolve segment_char fetch parse).
Proof.
  intros batch expanded resolved (models & -> & Hall)%resolve_Ok d Hd.
  apply list_elem_of_lookup in Hd as [i Hi].
  destruct (Forall2_lookup_l _ _ _ _ _ Hall Hi) as ([key document] & Hmodel & -> & _).
  simpl. apply (collected_entries models []). right.
  apply list_elem_of_fmap. exists (key, document). split; [done|].
  by eapply list_elem_of_lookup_2.
Qed.

Lemma requested_keys (dtmis : list string) (models : list (string * json)) expanded :
  Forall2 (fun requested model =>
             requested = DStr model.1
             /\ resolved_from segment_char fetch parse expanded model.1 model.2)
          (map DStr dtmis) models ->
  models.*1 = dtmis.
Proof.
  revert models. induction dtmis as [|dtmi dtmis IH]; simpl; intros models H.
  - by inversion H.
  - inversion H as [|? [key document] ? models' [Hkey _] Hrest]; subst.
    simpl in *. injection Hkey as <-. f_equal. by apply IH.
Qed.

Lemma targets_of_requests (dtmis : list string) targets tgt :
  Forall2 (fun requested t => target segment_char false requested = Ok t)
          (map DStr dtmis) targets ->
  tgt ∈ targets ->
  tgt.1 ∈ dtmis /\ toPath segment_char tgt.1 = Ok tgt.2.
Proof.
  intros Hall [i Hi]%list_elem_of_lookup.
  destruct (Forall2_lookup_r _ _ _ _ _ Hall Hi) as (requested & Hreq & Htarget).
  apply list_lookup_fmap_Some in Hreq as (dtmi & -> & Hdtmi).
  unfold target in Htarget. simpl in Htarget.
  destruct (toPath segment_char dtmi) as [path|] eqn:Hpath; [|done].
  cbn in Htarget. injection Htarget as <-. simpl.
  split; [by eapply list_elem_of_lookup_2|done].
Qed.

Lemma as_map_spec (resolved : list (string * json)) :
  dom (as_map resolved) = dom (∅ : gmap string json) ∪ list_to_set resolved.*1
  /\ forall k document,
      as_map resolved !! k = Some document ->
      (∅ : gmap string json) !! k = Some document \/ (k, document) ∈ resolved.
Proof. by apply merge_keys. Qed.

(** C7: in [disabled] mode [getModels] only resolves: it makes the one
    resolver call for the requested DTMIs, non-expanded, and completes as
    that call does, whatever the fuel, so nothing is expanded.  With the
    resolver of section 4.3 a returned map has exactly the requested DTMIs
    as keys, each with the document the repository holds for it; and when
    the document of a requested DTMI is absent the call rejects and returns
    no map, with [NotFound] unless another request is malformed or meets a
    transport error. *)
Theorem getModels_disabled fuel configured (dtmis : list string) options :
  effective_mode configured options = DEPENDENCY_MODE_DISABLED ->
  getModels (Resolver.resolve segment_char fetch parse) fuel configured
    (DtmiArray dtmis) options
  = Some (match Resolver.resolve segment_char fetch parse (map DStr dtmis) false with
          | Ok resolved => Ok (Some (as_map resolved))
          | Throw e => Throw e
          end,
          [(map DStr dtmis, false)])
  /\ (forall m log,
        getModels (Resolver.resolve segment_char fetch parse) fuel configured
          (DtmiArray dtmis) options
        = Some (Ok (Some m), log) ->
        dom m = list_to_set dtmis
        /\ forall dtmi document,
            m !! dtmi = Some document ->
            resolved_from segment_char fetch parse false dtmi document)
  /\ (forall dtmi path,
        dtmi ∈ dtmis ->
        toPath segment_char dtmi = Ok path ->
        fetch path = Absent ->
        (exists e,
            getModels (Resolver.resolve segment_char fetch parse) fuel configured
              (DtmiArray dtmis) options
            = Some (Throw e, [(map DStr dtmis, false)]))
        /\ ((forall d, d ∈ dtmis ->
                       exists p, toPath segment_char d = Ok p /\ fetch p <> Unreachable) ->
            getModels (Resolver.resolve segment_char fetch parse) fuel configured
              (DtmiArray dtmis) options
            = Some (Throw (ResolverError NotFound), [(map DStr dtmis, false)]))).
Proof.
  intros Hmode.
  assert (Hcall :
            getModels (Resolver.resolve segment_char fetch parse) fuel configured
              (DtmiArray dtmis) options
            = Some (match Resolver.resolve segment_char fetch parse (map DStr dtmis) false with
                    | Ok resolved => Ok (Some (as_map resolved))
                    | Throw e => Throw e
                    end,
                    [(map DStr dtmis, false)])).
  { unfold getModels. rewrite Hmode. simpl.
    by destruct (Resolver.resolve _ _ _ _ _). }
  rewrite Hcall. split; [done|split].
  - intros m log.
    destruct (Resolver.resolve _ _ _ _ _) as [resolved|] eqn:Hres; [|done].
    intros [= <- <-].
    destruct (resolve_Ok _ _ _ Hres) as (models & -> & Hall).
    destruct (collected_entries models []) as [Helem Hkeys].
    destruct (as_map_spec
                (foldl (fun entries model => set_entry model.1 model.2 entries) [] models))
      as [Hdom Hfrom].
    split.
    + rewrite Hdom, dom_empty_L, <- (requested_keys _ _ _ Hall).
      apply set_eq. intros k. rewrite elem_of_union, !elem_of_list_to_set, Hkeys.
      simpl. rewrite elem_of_empty, elem_of_nil. tauto.
    + intros dtmi document [Hlook|Hlook]%Hfrom; [by rewrite lookup_empty in Hlook|].
      apply Helem in Hlook as [Hlook|Hlook]; [by apply elem_of_nil in Hlook|].
      apply list_elem_of_lookup in Hlook as [i Hi].
      destruct (Forall2_lookup_r _ _ _ _ _ Hall Hi) as (requested & _ & _ & Hdoc).
      exact Hdoc.
  - intros dtmi path Hin Hpath Habsent.
    assert (Hfails : forall targets,
               Forall2 (fun requested t => target segment_char false requested = Ok t)
                       (map DStr dtmis) targets ->
               exists e, mapM payload (map (fun t => (t.1, fetch t.2)) targets) = Throw e).
    { intros targets Hall.
      apply list_elem_of_lookup in Hin as [i Hi].
      assert (Hrequested : map DStr dtmis !! i = Some (DStr dtmi))
        by by rewrite list_lookup_fmap, Hi.
      destruct (Forall2_lookup_l _ _ _ _ _ Hall Hrequested) as (tgt & Htgt & Htarget).
      unfold target in Htarget. simpl in Htarget. rewrite Hpath in Htarget.
      cbn in Htarget. injection Htarget as <-.
      apply (mapM_fails payload _ (dtmi, fetch path) (ResolverError NotFound)).
      - apply list_elem_of_fmap. exists (dtmi, path). split; [done|].
        by eapply list_elem_of_lookup_2.
      - unfold payload. simpl. by rewrite Habsent. }
    unfold Resolver.resolve.
    destruct (mapM (target segment_char false) (map DStr dtmis)) as [targets|e] eqn:Ht; cbn.
    + apply mapM_Ok in Ht. destruct (Hfails targets Ht) as [e He].
      rewrite He. cbn. split; [eauto|]. intros Hvalid.
      apply mapM_Throw in He as ([key got] & Hgot & Hpayload).
      apply list_elem_of_fmap in Hgot as (tgt & [= -> ->] & Htgt).
      destruct (targets_of_requests _ _ _ Ht Htgt) as [Hreq Htpath].
      destruct (Hvalid _ Hreq) as (p & Hp & Hreach).
      rewrite Htpath in Hp. injection Hp as <-.
      unfold payload in Hpayload. simpl in Hpayload.
      destruct (fetch tgt.2); [done| |done]. by injection Hpayload as <-.
    + split; [eauto|]. intros Hvalid.
      apply mapM_Throw in Ht as (requested & Hreq & Htarget).
      apply list_elem_of_fmap in Hreq as (d & -> & Hd).
      destruct (Hvalid _ Hd) as (p & Hp & _).
      unfold target in Htarget. simpl in Htarget. rewrite Hp in Htarget. done.
Qed.

End ResolverProperties.

(** A request for the Thermostat and for a model the repository does not
    hold, in [disabled] mode. *)
Lemma getModels_disabled_witness :
  ModelsRepositoryClient.getModels Example.resolve 0 "enabled"
    (ModelsRepositoryClient.DtmiArray [Example.thermostat_id; "dtmi:com:example:Missing;1"])
    Example.disabled_option
  = Some (Throw (ResolverError NotFound),
          [([DStr Example.thermostat_id; DStr "dtmi:com:example:Missing;1"], false)]).
Proof.
  destruct (getModels_disabled Addressing.word_char Example.fetch Example.parse 0 "enabled"
              [Example.thermostat_id; "dtmi:com:example:Missing;1"]
              Example.disabled_option eq_refl) as (_ & _ & H).
  destruct (H "dtmi:com:example:Missing;1" "dtmi/com/example/missing-1.json")
    as [_ Hnotfound].
  - repeat constructor.
  - vm_compute. reflexivity.
  - reflexivity.
  - apply Hnotfound. intros d Hd.
    apply elem_of_cons in Hd as [->|Hd]; [|apply list_elem_of_singleton in Hd as ->].
    + eexists. split; [vm_compute; reflexivity|discriminate].
    + eexists. split; [vm_compute; reflexivity|discriminate].
Defined.

(** ** Addressing *)

Section AddressingProperties.

Import Addressing.

(** Case analysis over the 256 characters. *)
Ltac by_character c :=
  destruct c as [[] [] [] [] [] [] [] []]; try discriminate; try reflexivity.

Lemma lower_ascii_idempotent c : lower_ascii (lower_ascii c) = lower_ascii c.
Proof. by_character c. Qed.

Lemma digit_is_plain c :
  is_digit c = true -> is_delimiter c = false /\ lower_ascii c = c.
Proof. by_character c; by split. Qed.

Lemma append_assoc a b c : (a +:+ b) +:+ c = a +:+ b +:+ c.
Proof.
  induction a as [|x a IH]; [done|].
  change (String x ((a +:+ b) +:+ c) = String x (a +:+ b +:+ c)). by f_equal.
Qed.

Lemma lower_app a b : lower (a +:+ b) = lower a +:+ lower b.
Proof. induction a as [|c a IH]; simpl; [done|by rewrite IH]. Qed.

Lemma translate_app a b : translate (a +:+ b) = translate a +:+ translate b.
Proof. induction a as [|c a IH]; simpl; [done|by rewrite IH]. Qed.

Lemma lower_translate s : lower (translate s) = translate s.
Proof.
  induction s as [|c s IH]; simpl; [done|]. rewrite IH. f_equal.
  destruct (is_colon c); [done|]. destruct (is_semicolon c); [done|].
  apply lower_ascii_idempotent.
Qed.

Lemma translate_digits s :
  all_chars is_digit s = true -> translate s = s /\ lower s = s.
Proof.
  induction s as [|c s IH]; simpl; [done|].
  intros [Hc Hs]%andb_prop. destruct (IH Hs) as [-> ->].
  destruct (digit_is_plain c Hc) as [Hplain ->].
  unfold is_delimiter in Hplain. apply orb_false_elim in Hplain as [-> ->]. done.
Qed.

Lemma split_nonempty sep s : split sep s <> [].
Proof.
  destruct s as [|c s]; simpl; [done|].
  destruct (sep c); [done|]. by destruct (split sep s).
Qed.

Lemma split_app sep a c b :
  sep c = true ->
  split sep (a +:+ String c b) = split sep a ++ split sep b.
Proof.
  intros Hc. induction a as [|x a IH]; simpl.
  - by rewrite Hc.
  - rewrite IH. destruct (sep x); [done|].
    pose proof (split_nonempty sep a). by destruct (split sep a).
Qed.

Lemma split_plain sep s :
  all_chars (fun c => negb (sep c)) s = true -> split sep s = [s].
Proof.
  induction s as [|c s IH]; simpl; [done|].
  intros [Hc Hs]%andb_prop. apply negb_true_iff in Hc. by rewrite Hc, (IH Hs).
Qed.

Lemma split_one sep s segment :
  split sep s = [segment] ->
  s = segment /\ all_chars (fun c => negb (sep c)) s = true.
Proof.
  revert segment. induction s as [|c s IH]; simpl; intros segment.
  - by intros [= <-].
  - destruct (sep c) eqn:Hc.
    + intros [= _ H]. by destruct (split_nonempty sep s).
    + pose proof (split_nonempty sep s).
      destruct (split sep s) as [|h [|]] eqn:Hs; [done| |done].
      intros [= <-]. destruct (IH h eq_refl) as [-> Hplain]. by rewrite Hplain.
Qed.

Lemma split_two sep s first second :
  split sep s = [first; second] ->
  exists c,
    sep c = true
    /\ s = first +:+ String c second
    /\ all_chars (fun c => negb (sep c)) first = true
    /\ all_chars (fun c => negb (sep c)) second = true.
Proof.
  revert first. induction s as [|c s IH]; simpl; intros first; [done|].
  destruct (sep c) eqn:Hc.
  - intros [= <- H]. destruct (split_one _ _ _ H) as [-> Hplain].
    exists c. done.
  - pose proof (split_nonempty sep s).
    destruct (split sep s) as [|h [|h' [|]]] eqn:Hs; try done.
    intros [= <- <-]. destruct (IH h eq_refl) as (c' & Hc' & -> & Hfirst & Hsecond).
    exists c'. simpl. by rewrite Hc, Hfirst.
Qed.

Lemma split_ext sep1 sep2 s :
  all_chars (fun c => Bool.eqb (sep1 c) (sep2 c)) s = true ->
  split sep1 s = split sep2 s.
Proof.
  induction s as [|c s IH]; simpl; [done|].
  intros [Hc Hs]%andb_prop. apply Bool.eqb_prop in Hc. by rewrite Hc, (IH Hs).
Qed.

Lemma all_chars_impl (p q : ascii -> bool) s :
  (forall c, p c = true -> q c = true) ->
  all_chars p s = true -> all_chars q s = true.
Proof.
  intros Hpq. induction s as [|c s IH]; simpl; [done|].
  intros [Hc Hs]%andb_prop. by rewrite (Hpq c Hc), (IH Hs).
Qed.

Lemma concat_cons_head sep c segment segments :
  String.concat sep (String c segment :: segments)
  = String c (String.concat sep (segment :: segments)).
Proof. by destruct segments. Qed.

(** Joining the segments with the separator gives the string back. *)
Lemma concat_split sep x s :
  (forall c, sep c = Ascii.eqb c x) ->
  String.concat (String x EmptyString) (split sep s) = s.
Proof.
  intros Hsep. induction s as [|c s IH]; simpl; [done|].
  pose proof (split_nonempty sep s). rewrite Hsep.
  destruct (Ascii.eqb_spec c x) as [->|Hne].
  - destruct (split sep s) eqn:Hs; [done|]. simpl in *. by rewrite IH.
  - destruct (split sep s) eqn:Hs; [done|].
    by rewrite concat_cons_head, IH.
Qed.

(** Between two [;] the path is the translation, character by character. *)
Lemma concat_translate s :
  all_chars (fun c => negb (is_semicolon c)) s = true ->
  String.concat "/" (map lower (split is_colon s)) = translate s.
Proof.
  induction s as [|c s IH]; simpl; [done|].
  intros [Hc Hs]%andb_prop. apply negb_true_iff in Hc. rewrite Hc.
  specialize (IH Hs). pose proof (split_nonempty is_colon s).
  destruct (is_colon c); destruct (split is_colon s) as [|h t] eqn:Hsplit; try done.
  - simpl in *. by rewrite IH.
  - simpl map. rewrite concat_cons_head. by rewrite <- IH.
Qed.

Variable segment_char : ascii -> bool.

(** C8: for every DTMI [d] that matches the scheme, that is
    [d = dtmi:<segment>:...:<segment>;<version>], [toPath d] is defined and
    is the segments between [:] and [;], each in lower case, joined with
    [/], followed by [-<version>.json]; it is also [d] with every letter in
    lower case, [:] replaced by [/] and [;] by [-], followed by [.json].
    The path is in lower case, and [toPath], a function of [d] alone, gives
    no other path.  [toPath "dtmi:com:example:Thermostat;1"] is
    ["dtmi/com/example/thermostat-1.json"] (letters being allowed in a
    segment). *)
Theorem toPath_of_valid_dtmi dtmi :
  (forall c, is_letter c = true -> segment_char c = true) ->
  matches_scheme segment_char dtmi = true ->
  (exists segment segments version path,
      dtmi = "dtmi:" +:+ String.concat ":" (segment :: segments) +:+ ";" +:+ version
      /\ split is_delimiter dtmi = "dtmi" :: (segment :: segments) ++ [version]
      /\ positive_integer version = true
      /\ toPath segment_char dtmi = Ok path
      /\ path = String.concat "/" (map lower ("dtmi" :: segment :: segments))
                +:+ "-" +:+ version +:+ ".json"
      /\ path = translate dtmi +:+ ".json"
      /\ lower path = path
      /\ forall path', toPath segment_char dtmi = Ok path' -> path' = path)
  /\ toPath segment_char "dtmi:com:example:Thermostat;1"
     = Ok "dtmi/com/example/thermostat-1.json".
Proof.
  intros Hletters Hvalid. split.
  - unfold toPath. rewrite Hvalid. unfold matches_scheme in Hvalid.
    destruct (split is_semicolon dtmi) as [|name [|version [|]]] eqn:Hsemi; try done.
    apply andb_prop in Hvalid as [Hversion Hname].
    destruct (split is_colon name) as [|scheme [|segment segments]] eqn:Hcolon; try done.
    apply andb_prop in Hname as [Hscheme%String.eqb_eq _]. subst scheme.
    destruct (split_two _ _ _ _ Hsemi) as (c & Hc%Ascii.eqb_eq & -> & Hplain & _).
    subst c.
    assert (Hdigits : all_chars is_digit version = true).
    { unfold positive_integer in Hversion.
      by apply andb_prop in Hversion as [[_ ?]%andb_prop _]. }
    destruct (translate_digits _ Hdigits) as [Htv Hlv].
    assert (Hsegments :
              split is_delimiter (name +:+ String ";" version)
              = "dtmi" :: (segment :: segments) ++ [version]).
    { rewrite split_app by done.
      rewrite (split_ext is_delimiter is_colon name), Hcolon.
      - rewrite (split_plain is_delimiter version); [done|].
        eapply all_chars_impl; [|exact Hdigits].
        intros c Hc. by destruct (digit_is_plain c Hc) as [-> _].
      - eapply all_chars_impl; [|exact Hplain].
        intros c Hc. unfold is_delimiter. apply negb_true_iff in Hc. rewrite Hc.
        by destruct (is_colon c). }
    assert (Hpath :
              path_with ".json" (name +:+ String ";" version)
              = String.concat "/" (map lower ("dtmi" :: segment :: segments))
                  +:+ "-" +:+ version +:+ ".json").
    { unfold path_with. rewrite Hsegments.
      change ("dtmi" :: (segment :: segments) ++ [version])
        with (("dtmi" :: segment :: segments) ++ [version]).
      rewrite map_app. change (map lower [version]) with [lower version].
      by rewrite removelast_last, last_last, Hlv. }
    exists segment, segments, version, (path_with ".json" (name +:+ String ";" version)).
    split; [|split; [done|split; [done|split; [done|split; [done|]]]]].
    + rewrite <- (concat_split is_colon ":"%char name) at 1 by done.
      rewrite Hcolon.
      change (String.concat ":" ("dtmi" :: segment :: segments))
        with ("dtmi:" +:+ String.concat ":" (segment :: segments)).
      by rewrite !append_assoc.
    + assert (Htranslate :
                path_with ".json" (name +:+ String ";" version)
                = translate (name +:+ String ";" version) +:+ ".json").
      { rewrite Hpath, <- Hcolon, (concat_translate name Hplain), translate_app.
        simpl. rewrite Htv. by rewrite !append_assoc. }
      split; [done|split; [|by intros path' [= <-]]].
      rewrite Htranslate, lower_app, lower_translate. done.
  - unfold toPath, matches_scheme, valid_segment. simpl.
    rewrite !Hletters by reflexivity. reflexivity.
Qed.

End AddressingProperties.

(** The Device of the examples, over letters, digits and underscores. *)
Lemma toPath_of_valid_dtmi_witness :
  (exists segment segments version path,
      Example.device_id
      = "dtmi:" +:+ String.concat ":" (segment :: segments) +:+ ";" +:+ version
      /\ Addressing.split Addressing.is_delimiter Example.device_id
         = "dtmi" :: (segment :: segments) ++ [version]
      /\ Addressing.positive_integer version = true
      /\ Addressing.toPath Addressing.word_char Example.device_id = Ok path
      /\ path = String.concat "/" (map Addressing.lower ("dtmi" :: segment :: segments))
                +:+ "-" +:+ version +:+ ".json"
      /\ path = Addressing.translate Example.device_id +:+ ".json"
      /\ Addressing.lower path = path
      /\ forall path',
          Addressing.toPath Addressing.word_char Example.device_id = Ok path' ->
          path' = path)
  /\ Addressing.toPath Addressing.word_char "dtmi:com:example:Thermostat;1"
     = Ok "dtmi/com/example/thermostat-1.json".
Proof.
  apply (toPath_of_valid_dtmi Addressing.word_char Example.device_id).
  - intros c Hc. unfold Addressing.word_char. rewrite Hc. reflexivity.
  - reflexivity.
Defined.

(** ** Regular expressions *)

Section RegExpProperties.

Import RegExp.

Lemma nullable_lang r : nullable r = true <-> lang r [].
Proof.
  split.
  - induction r as [| |accepts|r1 IH1 r2 IH2|r1 IH1 r2 IH2|r IH]; simpl; try done.
    + intros _. constructor.
    + intros [H1 H2]%andb_prop. apply (lang_cat r1 r2 [] []); auto.
    + intros [H|H]%orb_prop; [apply lang_alt_l|apply lang_alt_r]; auto.
    + intros _. constructor.
  - intros H. remember [] as s eqn:Hs.
    induction H as [|accepts c Hc|r1 r2 s1 s2 H1 IH1 H2 IH2|r1 r2 s H IH|r1 r2 s H IH
                    |r|r s1 s2 H1 IH1 H2 IH2]; simpl; try done.
    + apply app_eq_nil in Hs as [-> ->]. by rewrite IH1, IH2.
    + by rewrite IH.
    + rewrite IH by done. apply orb_true_r.
Qed.

Lemma derive_sound c r s : lang (derive c r) s -> lang r (c :: s).
Proof.
  revert s. induction r as [| |accepts|r1 IH1 r2 IH2|r1 IH1 r2 IH2|r IH];
    simpl; intros s H.
  - inversion H.
  - inversion H.
  - destruct (accepts c) eqn:Hc; inversion H; subst. by constructor.
  - assert (Hcat : lang (Cat (derive c r1) r2) s -> lang (Cat r1 r2) (c :: s)).
    { intros Hd. inversion Hd as [| |? ? s1 s2 H1 H2| | | |]; subst.
      apply (lang_cat r1 r2 (c :: s1) s2); auto. }
    destruct (nullable r1) eqn:Hnull; [|auto].
    inversion H as [| | |? ? ? Hl|? ? ? Hr| |]; subst; [auto|].
    apply (lang_cat r1 r2 [] (c :: s)); [by apply nullable_lang|auto].
  - inversion H; subst; [apply lang_alt_l|apply lang_alt_r]; auto.
  - inversion H as [| |? ? s1 s2 H1 H2| | | |]; subst.
    apply (lang_star_more r (c :: s1) s2); auto.
Qed.

Lemma derive_complete c r s : lang r (c :: s) -> lang (derive c r) s.
Proof.
  intros H. remember (c :: s) as w eqn:Hw. revert s Hw.
  induction H as [|accepts c' Hc|r1 r2 s1 s2 H1 IH1 H2 IH2|r1 r2 w H IH|r1 r2 w H IH
                  |r|r s1 s2 H1 IH1 H2 IH2]; intros s Hw; simpl; try done.
  - injection Hw as -> <-. rewrite Hc. constructor.
  - destruct s1 as [|c1 s1]; simpl in Hw.
    + subst s2. apply nullable_lang in H1. rewrite H1. apply lang_alt_r. auto.
    + injection Hw as -> <-.
      destruct (nullable r1); [apply lang_alt_l|]; constructor; auto.
  - apply lang_alt_l. auto.
  - apply lang_alt_r. auto.
  - destruct s1 as [|c1 s1]; simpl in Hw; [auto|].
    injection Hw as -> <-. constructor; auto.
Qed.

(** The derivatives decide the language. *)
Lemma matches_lang r s : matches r s = true <-> lang r s.
Proof.
  revert r. induction s as [|c s IH]; simpl; intros r.
  - apply nullable_lang.
  - rewrite IH. split; [apply derive_sound|apply derive_complete].
Qed.

Lemma within_lang allowed r s :
  within allowed r -> lang r s -> Forall (fun c => allowed c = true) s.
Proof.
  intros Hwithin H.
  induction H as [|accepts c Hc|r1 r2 s1 s2 H1 IH1 H2 IH2|r1 r2 w H IH|r1 r2 w H IH
                  |r|r s1 s2 H1 IH1 H2 IH2]; simpl in Hwithin.
  - constructor.
  - constructor; [auto|constructor].
  - destruct Hwithin. apply Forall_app. auto.
  - destruct Hwithin. auto.
  - destruct Hwithin. auto.
  - constructor.
  - apply Forall_app. auto.
Qed.

Lemma lang_plus_class accepts s :
  s <> [] -> Forall (fun c => accepts c = true) s -> lang (Plus (Class accepts)) s.
Proof.
  intros Hne Hall. destruct s as [|c s]; [done|].
  apply Forall_cons in Hall as [Hc Hs]. clear Hne.
  apply (lang_cat (Class accepts) (Star (Class accepts)) [c] s); [by constructor|].
  induction Hs as [|c' s Hc' Hs IH]; [constructor|].
  apply (lang_star_more (Class accepts) [c'] s); [by constructor|done].
Qed.

Lemma lang_char x : lang (char x) [x].
Proof. constructor. apply Ascii.eqb_refl. Qed.

End RegExpProperties.

(** ** The repository location *)

(** Case analysis over the 256 characters. *)
Ltac character_cases c :=
  destruct c as [[] [] [] [] [] [] [] []]; try discriminate; try reflexivity.

(** Takes apart a membership in the language of a concatenation, an
    alternation or a character class. *)
Ltac invert_lang :=
  repeat match goal with
    | H : RegExp.lang (RegExp.Cat _ _) _ |- _ => inversion H; subst; clear H
    | H : RegExp.lang (RegExp.Alt _ _) _ |- _ => inversion H; subst; clear H
    | H : RegExp.lang (RegExp.Class _) _ |- _ => inversion H; subst; clear H
    | H : RegExp.lang (RegExp.char _) _ |- _ => inversion H; subst; clear H
    | H : RegExp.lang (RegExp.Plus _) _ |- _ => inversion H; subst; clear H
    | H : Ascii.eqb _ _ = true |- _ => apply Ascii.eqb_eq in H; subst
    end.

Section LocationProperties.

Import RegExp ModelsRepositoryClient.

Lemma length_list_ascii_of_string p :
  length (String.list_ascii_of_string p) = String.length p.
Proof. induction p as [|c p IH]; simpl; [done|by rewrite IH]. Qed.

Lemma local_path_within : within path_char local_path_pattern.
Proof.
  unfold local_path_pattern, Plus, char. simpl.
  repeat split; intros c Hc; character_cases c.
Qed.

(** [isLocalPath] takes no location for a local path unless each of its
    characters is a letter, a digit or one of [_ . : \ $]: a location with
    a forward slash, a space or a hyphen in it is not a local path. *)
Theorem isLocalPath_alphabet p c :
  isLocalPath p = true ->
  c ∈ String.list_ascii_of_string p ->
  path_char c = true
  /\ c <> "/"%char /\ c <> " "%char /\ c <> "-"%char.
Proof.
  intros Hlocal Hc. apply matches_lang in Hlocal.
  pose proof (within_lang _ _ _ local_path_within Hlocal) as Hall.
  rewrite Forall_forall in Hall. specialize (Hall c Hc).
  split; [done|]. repeat split; intros ->; discriminate.
Qed.

(** A local path starts with a drive letter followed by [:\] or with two
    backslashes, and has at least five characters: after the last
    backslash the file name has two characters or more. *)
Theorem isLocalPath_shape p :
  isLocalPath p = true ->
  ((exists drive rest,
       p = String drive (String ":" (String "\" rest)) /\ letter drive = true)
   \/ exists rest, p = String "\" (String "\" rest))
  /\ 5 <= String.length p.
Proof.
  intros Hlocal. apply matches_lang in Hlocal.
  rewrite <- (String.string_of_list_ascii_of_string p).
  rewrite <- (length_list_ascii_of_string (String.string_of_list_ascii _)).
  rewrite String.list_ascii_of_string_of_list_ascii.
  unfold local_path_pattern in Hlocal. invert_lang.
  - split; [left; eexists _, _; split; [reflexivity|done]|].
    rewrite !length_app. simpl. lia.
  - split; [right; eexists; reflexivity|].
    rewrite !length_app. simpl. lia.
Qed.

Lemma lang_directories dirs :
  Forall (fun dir => dir <> [] /\ Forall (fun c => word c = true) dir) dirs ->
  lang (Star (Cat (Plus (Class word)) (char "\")))
       (concat (map (fun dir => dir ++ ["\"%char]) dirs)).
Proof.
  induction 1 as [|dir dirs [Hne Hword] _ IH]; simpl; [constructor|].
  apply (lang_star_more _ (dir ++ ["\"%char])); [|done].
  apply (lang_cat _ _ dir); [by apply lang_plus_class|apply lang_char].
Qed.

(** A drive letter, [:\], directories made of letters, digits and
    underscores, each followed by a backslash, and a file name of two or
    more such characters or dots that does not start with a dot: such a
    location is a local path. *)
Theorem isLocalPath_drive_path drive dirs first name :
  letter drive = true ->
  Forall (fun dir => dir <> [] /\ Forall (fun c => word c = true) dir) dirs ->
  word first = true ->
  name <> [] ->
  Forall (fun c => word_or_dot c = true) name ->
  isLocalPath
    (String.string_of_list_ascii
       (drive :: ":"%char :: "\"%char
          :: concat (map (fun dir => dir ++ ["\"%char]) dirs) ++ first :: name))
  = true.
Proof.
  intros Hdrive Hdirs Hfirst Hne Hname. unfold isLocalPath.
  rewrite String.list_ascii_of_string_of_list_ascii. apply matches_lang.
  unfold local_path_pattern.
  apply (lang_cat _ _ [drive; ":"%char]).
  { apply lang_alt_l. apply (lang_cat _ _ [drive] [":"%char]);
      [by constructor|apply lang_char]. }
  apply (lang_cat _ _ ["\"%char]); [apply lang_char|].
  apply lang_cat; [by apply lang_directories|].
  apply (lang_cat _ _ [first] name); [by constructor|by apply lang_plus_class].
Qed.

End LocationProperties.

(** [C:\Users\me\thermostat.json] *)
Lemma isLocalPath_drive_path_witness :
  ModelsRepositoryClient.isLocalPath "C:\Users\me\thermostat.json" = true.
Proof.
  apply (isLocalPath_drive_path "C"
           [String.list_ascii_of_string "Users"; String.list_ascii_of_string "me"]
           "t" (String.list_ascii_of_string "hermostat.json")).
  - reflexivity.
  - repeat constructor; discriminate.
  - reflexivity.
  - discriminate.
  - repeat constructor.
Defined.

Lemma isLocalPath_alphabet_witness :
  RegExp.path_char "C" = true
  /\ "C"%char <> "/"%char /\ "C"%char <> " "%char /\ "C"%char <> "-"%char.
Proof.
  apply (isLocalPath_alphabet "C:\models\thermostat.json" "C").
  - reflexivity.
  - repeat constructor.
Defined.

Lemma isLocalPath_shape_witness :
  ((exists drive rest,
       "C:\models\thermostat.json" = String drive (String ":" (String "\" rest))
       /\ RegExp.letter drive = true)
   \/ exists rest, "C:\models\thermostat.json" = String "\" (String "\" rest))
  /\ 5 <= String.length "C:\models\thermostat.json".
Proof.
  apply (isLocalPath_shape "C:\models\thermostat.json"). reflexivity.
Defined.

(** ** Modes and options of the client *)

Section ModeProperties.

Import PseudoParser Closure ModelsRepositoryClient.

Variable resolve : list dep -> bool -> result (list (string * json)).

(** A mode that is none of the three names makes [getModels] reject with
    an [EvalError] that quotes it, before any resolver call, whether it
    comes from the call's options or from the client. *)
Theorem getModels_unknown_mode fuel configured dtmis options :
  effective_mode configured options <> DEPENDENCY_MODE_DISABLED ->
  effective_mode configured options <> DEPENDENCY_MODE_ENABLED ->
  effective_mode configured options <> DEPENDENCY_MODE_TRY_FROM_EXPANDED ->
  getModels resolve fuel configured dtmis options
  = Some (Throw (EvalError ("Invalid dependency resolution mode: "
                              +:+ effective_mode configured options)),
          []).
Proof.
  intros Hdisabled Henabled Hexpanded. unfold getModels.
  destruct (String.eqb_spec (effective_mode configured options) DEPENDENCY_MODE_DISABLED);
    [done|].
  destruct (String.eqb_spec (effective_mode configured options) DEPENDENCY_MODE_ENABLED);
    [done|].
  by destruct (String.eqb_spec (effective_mode configured options)
                 DEPENDENCY_MODE_TRY_FROM_EXPANDED).
Qed.

(** A client constructed without a [dependencyResolution] option, called
    without per-call options, does what the mode the constructor chose
    does.  With a repository location of its own it resolves the
    requested DTMIs without asking for expanded documents, rejects when
    that fails, and otherwise expands the resolved documents and completes
    as the expansion does, after that first call.  Without one it asks
    once for the expanded documents and returns them; a [RestError] gives
    no result, any other error rejects. *)
Theorem default_mode_follows_location fuel options dtmis :
  clientDependencyResolution options = None
  \/ clientDependencyResolution options = Some "" ->
  getModels resolve fuel (configured_dependencyResolution options) (DtmiArray dtmis) None
  = if match repositoryLocation options with
       | Some location => negb (String.eqb location "")
       | None => false
       end
    then
      match resolve (map DStr dtmis) false with
      | Throw e => Some (Throw e, [(map DStr dtmis, false)])
      | Ok base =>
          match expand resolve fuel (omap (fun key => assoc key base) base.*1) false with
          | None => None
          | Some (Throw e, calls) => Some (Throw e, (map DStr dtmis, false) :: calls)
          | Some (Ok m, calls) => Some (Ok (Some m), (map DStr dtmis, false) :: calls)
          end
      end
    else
      match resolve (map DStr dtmis) true with
      | Ok resolved => Some (Ok (Some (as_map resolved)), [(map DStr dtmis, true)])
      | Throw e =>
          if isRestError e then Some (Ok None, [(map DStr dtmis, true)])
          else Some (Throw e, [(map DStr dtmis, true)])
      end.
Proof.
  intros Hmode. unfold configured_dependencyResolution.
  assert (Hconfigured :
            forall default,
              or_else (clientDependencyResolution options) default = default)
    by (intros default; destruct Hmode as [-> | ->]; reflexivity).
  rewrite Hconfigured. unfold getModels, effective_mode.
  destruct (repositoryLocation options) as [location|];
    [destruct (String.eqb location "")|]; reflexivity.
Qed.

Lemma expands_fulfilled_ids tfe models m log m' log' :
  expands resolve tfe models m log (Ok m', log') ->
  Forall (fun model => is_Some (prop "@id" model)) models.
Proof.
  intros H. remember (Ok m', log') as out eqn:Hout. revert Hout.
  induction H as [m log|model rest m log e Hseed|model rest m log seeded e log1 Hseed Hrun
                  |model rest m log seeded expanded log1 out Hseed Hrun Hrest IH];
    intros Hout; try discriminate; constructor; auto.
  destruct (prop "@id" model) eqn:Hid; [eauto|].
  unfold seed in Hseed. rewrite Hid in Hseed. by destruct model.
Qed.

End ModeProperties.

(** ** The user agent of the pipeline *)

Section CreateClientProperties.

Import ModelsRepositoryClient.

Variable DEFAULT_USER_AGENT : string.

Lemma append_nil_r s : s +:+ "" = s.
Proof. induction s as [|c s IH]; [done|]. by change (String c (s +:+ "") = String c s); rewrite IH. Qed.

Lemma append_nonempty a b : a <> "" -> a +:+ b <> "".
Proof. by destruct a. Qed.

Lemma created_S n userAgentOptions (heap : gmap nat UserAgentOptions) :
  created DEFAULT_USER_AGENT (S n) userAgentOptions heap
  = (_createClient DEFAULT_USER_AGENT userAgentOptions
       (created DEFAULT_USER_AGENT n userAgentOptions heap)).1.
Proof. reflexivity. Qed.

(** [_createClient] writes through the reference it copied: when the
    caller's options carry a non-empty user agent prefix, each call
    appends a space and the default user agent to the caller's own
    object, so that after [n] calls with the same options it holds the
    prefix followed by [n] copies; nothing else in the heap changes. *)
Theorem createClient_appends_to_callers_options n reference prefix
    (heap : gmap nat UserAgentOptions) :
  heap !! reference = Some {| userAgentPrefix := Some prefix |} ->
  prefix <> "" ->
  created DEFAULT_USER_AGENT n (Some reference) heap
  = <[reference :=
        {| userAgentPrefix := Some (prefix +:+ appended DEFAULT_USER_AGENT n) |}]> heap.
Proof.
  intros Hheap Hprefix. induction n as [|n IH].
  - simpl. rewrite append_nil_r. by rewrite insert_id.
  - rewrite created_S, IH. unfold _createClient. simpl.
    rewrite lookup_insert_eq. simpl.
    destruct (String.eqb_spec (prefix +:+ appended DEFAULT_USER_AGENT n) "") as [Hempty|_];
      [by apply append_nonempty in Hempty|].
    by rewrite insert_insert_eq, append_assoc.
Qed.

(** When the caller's options carry no [userAgentOptions], no number of
    calls touches an object of the caller: each call writes to an object
    of its own. *)
Theorem createClient_without_options_is_private n l (heap : gmap nat UserAgentOptions) :
  is_Some (heap !! l) ->
  created DEFAULT_USER_AGENT n None heap !! l = heap !! l.
Proof.
  intros Hl. induction n as [|n IH]; [done|].
  rewrite created_S. unfold _createClient. simpl.
  set (before := created _ n None heap) in *.
  assert (l <> fresh (dom before)) as Hfresh.
  { intros ->. apply (is_fresh (dom before)). apply elem_of_dom. by rewrite IH. }
  by rewrite !lookup_insert_ne.
Qed.

End CreateClientProperties.

(** After two calls with the options [{ userAgentOptions: { userAgentPrefix:
    "app" } }] and the default user agent ["sdk"], the caller's prefix is
    ["app sdk sdk"]. *)
Lemma createClient_appends_to_callers_options_witness :
  ModelsRepositoryClient.created "sdk" 2 (Some 0%nat)
    {[ 0%nat := {| ModelsRepositoryClient.userAgentPrefix := Some "app" |} ]}
  = {[ 0%nat := {| ModelsRepositoryClient.userAgentPrefix := Some "app sdk sdk" |} ]}.
Proof.
  rewrite (createClient_appends_to_callers_options "sdk" 2 0%nat "app");
    [by rewrite insert_singleton_eq|by rewrite lookup_singleton_eq|discriminate].
Defined.

Lemma createClient_without_options_is_private_witness :
  ModelsRepositoryClient.created "sdk" 2 None
    {[ 0%nat := {| ModelsRepositoryClient.userAgentPrefix := Some "app" |} ]} !! 0%nat
  = Some {| ModelsRepositoryClient.userAgentPrefix := Some "app" |}.
Proof.
  rewrite (createClient_without_options_is_private "sdk" 2 0%nat);
    rewrite lookup_singleton_eq; [done|eauto].
Defined.

(** ** The mode [enabled] *)

Section EnabledMode.

Import PseudoParser Closure ModelsRepositoryClient.

Variable resolve : list dep -> bool -> result (list (string * json)).

Lemma closed_empty : closed ∅.
Proof. intros key document Hlook. by rewrite lookup_empty in Hlook. Qed.

Lemma elem_of_identifiers model id (models : list json) :
  model ∈ models -> prop "@id" model = Some id -> to_string id ∈ identifiers models.
Proof.
  intros Hin Hid. unfold identifiers. apply elem_of_list_to_set, list_elem_of_omap.
  exists model. by rewrite Hid.
Qed.

(** In the mode ["enabled"], [getModels] resolves the requested DTMIs
    without asking for expanded documents and hands every resolved
    document to [expand]: when the resolver answers the requests it
    fulfils, with plain documents, a returned map is closed under the
    dependencies [_getModelDependencies] computes, and every document of
    the first call has an ["@id"], which is a key of the map. *)
Theorem getModels_enabled_returns_closure fuel configured dtmis options m log :
  effective_mode configured options = DEPENDENCY_MODE_ENABLED ->
  answers_requests resolve ->
  plain_resolver resolve ->
  getModels resolve fuel configured (DtmiArray dtmis) options = Some (Ok (Some m), log) ->
  exists base calls,
    resolve (map DStr dtmis) false = Ok base
    /\ log = (map DStr dtmis, false) :: calls
    /\ closed m
    /\ forall key,
        key ∈ base.*1 ->
        exists document id,
          assoc key base = Some document
          /\ prop "@id" document = Some id
          /\ to_string id ∈ dom m.
Proof.
  intros Hmode Hanswers Hplain. unfold getModels. rewrite Hmode. simpl.
  destruct (resolve (map DStr dtmis) false) as [base|e] eqn:Hbase; [|done].
  destruct (expand _ _ _ _) as [[[expanded|e] calls]|] eqn:Hexpand; [|done|done].
  intros [= <- <-]. apply expand_from_expands in Hexpand.
  assert (Hmodels : forall model,
             model ∈ omap (fun key => assoc key base) base.*1 -> plain_model model).
  { intros model (key & _ & Hmodel%assoc_Some_elem)%list_elem_of_omap.
    by destruct (Hplain _ _ _ _ _ Hbase Hmodel). }
  destruct (expands_closed _ _ _ _ _ _ _ Hanswers Hplain Hmodels Hexpand closed_empty)
    as (Hclosed & _ & Hids).
  exists base, calls. do 3 (split; [done|]).
  intros key Hkey. apply assoc_is_Some in Hkey as [document Hdocument].
  assert (Hin : document ∈ omap (fun key => assoc key base) base.*1).
  { apply list_elem_of_omap. exists key. split; [|done].
    apply assoc_Some_elem in Hdocument.
    apply list_elem_of_fmap. by exists (key, document). }
  pose proof (expands_fulfilled_ids _ _ _ _ _ _ _ Hexpand) as Hall.
  rewrite Forall_forall in Hall. destruct (Hall _ Hin) as [id Hid].
  exists document, id. do 2 (split; [done|]).
  apply Hids. by eapply elem_of_identifiers.
Qed.

End EnabledMode.

(** ** What the expander asks, stores and throws *)

Section Failures.

Import PseudoParser Provenance.

Lemma depth_item item items : item ∈ items -> (depth item < depth (JArr items))%nat.
Proof.
  simpl. induction 1 as [item items|item other items _ IH]; simpl; lia.
Qed.

Lemma depth_field k fields value :
  assoc k fields = Some value -> (depth value < depth (JObj fields))%nat.
Proof.
  simpl. induction fields as [|[k' v] fields IH]; simpl; [done|].
  destruct (String.eqb k k'); [intros [= ->]; lia|]. intros H%IH. lia.
Qed.

Lemma for_each_Throw {A B : Type} (visit : A -> result (list B)) l e :
  for_each visit l = Throw e -> exists x, x ∈ l /\ visit x = Throw e.
Proof.
  induction l as [|x l IH]; simpl; [done|].
  destruct (visit x) as [pushed|e'] eqn:Hx.
  - destruct (for_each visit l); [done|]. intros [= ->].
    destruct IH as (y & ? & ?); [done|]. exists y. split; [by right|done].
  - intros [= ->]. exists x. split; [by left|done].
Qed.

Lemma component_schema_Throw element e :
  component_schema element = Throw e -> element = JNull /\ e = TypeError.
Proof.
  unfold component_schema. destruct element; simpl; try (by intros [= <-]);
    repeat case_match; done.
Qed.

Lemma contents_dependencies_Throw fields e :
  contents_dependencies fields = Throw e -> e = TypeError.
Proof.
  unfold contents_dependencies.
  destruct (assoc "contents" fields) as [[| | | |contents|]|]; try (by intros [= <-]).
  intros (element & _ & H%component_schema_Throw)%for_each_Throw. tauto.
Qed.

(** [_getModelDependencies] raises nothing but a [TypeError]: on reading
    a property of [null], or on a [contents] without [forEach]. *)
Lemma getModelDependencies_Throw model e :
  _getModelDependencies model = Throw e -> e = TypeError.
Proof.
  remember (depth model) as n eqn:Hn. revert model Hn.
  induction n as [n IH] using lt_wf_ind. intros model -> H.
  destruct model as [| | | | |fields]; try discriminate; [by injection H as <-|].
  simpl in H. rewrite with_field_assoc in H.
  destruct (contents_dependencies fields) as [from_contents|e'] eqn:Hcontents.
  2: { injection H as <-. by eapply contents_dependencies_Throw. }
  destruct (assoc "extends" fields) as [extends|] eqn:Hextends; [|done].
  apply depth_field in Hextends.
  destruct (extends_dependencies _ extends) as [from_extends|e'] eqn:Hfrom; [done|].
  injection H as <-. unfold extends_dependencies in Hfrom.
  destruct extends as [| | | |elements|]; try discriminate.
  apply for_each_Throw in Hfrom as (element & Hin%depth_item & Hthrow).
  unfold extends_element in Hthrow.
  destruct element; try discriminate;
    match type of Hthrow with
    | context [_getModelDependencies ?j] =>
        destruct (_getModelDependencies j) as [|e''] eqn:Hnested; [done|];
        injection Hthrow as <-;
        apply (IH (depth j)) with (model := j); [lia|done|done]
    end.
Qed.

Lemma getModelDependencies_strings_once model dependencies :
  _getModelDependencies model = Ok dependencies -> NoDup (Closure.strings_of dependencies).
Proof.
  destruct model as [| | | | |fields]; try (by intros [= <-]; apply NoDup_nil_2).
  simpl. destruct (contents_dependencies fields); [|done].
  destruct (with_field _ _ _ fields); [|done].
  intros [= <-]. apply array_from_set_strings_once.
Qed.

End Failures.

Section ProvenanceProperties.

Import PseudoParser Closure Provenance.

Variable resolve : list dep -> bool -> result (list (string * json)).

Lemma strings_of_filter (keep : dep -> bool) dependencies :
  NoDup (strings_of dependencies) -> NoDup (strings_of (List.filter keep dependencies)).
Proof.
  unfold strings_of. induction dependencies as [|[s|a] ds IH]; simpl; [done| |].
  - intros [Hs Hds]%NoDup_cons. destruct (keep (DStr s)); simpl; [|auto].
    apply NoDup_cons. split; [|auto]. intros Hin. apply Hs.
    apply list_elem_of_omap in Hin as (d & [Hd _]%list_elem_of_In%filter_In & Heq).
    apply list_elem_of_omap. exists d. by rewrite list_elem_of_In.
  - destruct (keep (DArr a)); simpl; auto.
Qed.

Lemma start_shape m model t :
  t ∈ start m model ->
  match t with
  | Awaiting batch => batch <> [] /\ NoDup (strings_of batch)
  | Rejected e => e = TypeError
  end.
Proof.
  unfold start.
  destruct (_getModelDependencies model) as [dependencies|e] eqn:Hdeps.
  - pose proof (strings_of_filter
                  (fun d => negb (has_property m (dep_to_key d))) dependencies
                  (getModelDependencies_strings_once _ _ Hdeps)) as Honce.
    fold (dependenciesToResolve m dependencies) in Honce.
    destruct (dependenciesToResolve m dependencies) as [|d batch];
      [by intros ?%elem_of_nil|].
    by intros ->%list_elem_of_singleton.
  - intros ->%list_elem_of_singleton. by eapply getModelDependencies_Throw.
Qed.

Lemma spawn_shape m resolved t :
  t ∈ spawn m resolved ->
  match t with
  | Awaiting batch => batch <> [] /\ NoDup (strings_of batch)
  | Rejected e => e = TypeError
  end.
Proof.
  unfold spawn. rewrite list_elem_of_In, in_concat.
  intros (tasks & (document & <- & _)%in_map_iff & Hin).
  eapply start_shape. by apply list_elem_of_In.
Qed.

Lemma elem_of_issued tfe tasks batch expanded :
  (batch, expanded) ∈ issued tfe tasks <-> expanded = tfe /\ Awaiting batch ∈ tasks.
Proof.
  induction tasks as [|[batch'|e] tasks IH]; simpl.
  - split; [by intros ?%elem_of_nil|by intros [_ ?%elem_of_nil]].
  - rewrite !elem_of_cons, IH. naive_solver.
  - rewrite elem_of_cons, IH. naive_solver.
Qed.

Lemma elem_of_retry_call tfe batch call :
  call ∈ retry_call resolve batch tfe ->
  call = (batch, false) /\ exists cause, resolve batch tfe = Throw (RestError cause).
Proof.
  unfold retry_call. destruct (resolve batch tfe) as [|[]]; simpl;
    try (by intros ?%elem_of_nil).
  intros ->%list_elem_of_singleton. eauto.
Qed.

Lemma resolve_with_retry_logged tfe batch log :
  (batch, tfe) ∈ log ->
  exists expanded,
    (batch, expanded) ∈ log ++ retry_call resolve batch tfe
    /\ resolve_with_retry resolve batch tfe = resolve batch expanded.
Proof.
  intros Hin. unfold resolve_with_retry, retry_call.
  destruct (resolve batch tfe) as [resolved|e] eqn:Hcall.
  - exists tfe. rewrite Hcall. split; [set_solver|done].
  - destruct (isRestError e).
    + exists false. split; [set_solver|done].
    + exists tfe. rewrite Hcall. split; [set_solver|done].
Qed.

Lemma disciplined_app tfe log more :
  disciplined resolve tfe log ->
  (forall batch expanded,
      (batch, expanded) ∈ more ->
      batch <> [] /\ NoDup (strings_of batch)
      /\ (expanded = tfe
          \/ expanded = false /\ (batch, tfe) ∈ log
             /\ exists cause, resolve batch tfe = Throw (RestError cause))) ->
  disciplined resolve tfe (log ++ more).
Proof.
  intros Hlog Hmore batch expanded [Hin|Hin]%elem_of_app.
  - destruct (Hlog _ _ Hin) as (? & ? & [?|(? & ? & ?)]); set_solver.
  - destruct (Hmore _ _ Hin) as (? & ? & [?|(? & ? & ?)]); set_solver.
Qed.

Lemma accounted_weaken models log log' m :
  accounted resolve models log m -> log ⊆ log' -> accounted resolve models log' m.
Proof.
  intros H Hsub key document Hlook.
  destruct (H key document Hlook) as [?|(batch & expanded & resolved & ? & ? & ?)];
    [by left|right].
  exists batch, expanded, resolved. set_solver.
Qed.

Lemma logged_weaken tfe log log' tasks :
  logged tfe log tasks -> log ⊆ log' -> logged tfe log' tasks.
Proof.
  intros H Hsub t Hin. specialize (H t Hin). destruct t; set_solver.
Qed.

(** One settled batch keeps the three properties. *)
Lemma resumed_sound tfe models m before batch after log resolved :
  let st := resumed resolve tfe m (before ++ after) log batch resolved in
  disciplined resolve tfe log ->
  logged tfe log (before ++ Awaiting batch :: after) ->
  accounted resolve models log m ->
  resolve_with_retry resolve batch tfe = Ok resolved ->
  disciplined resolve tfe (fetches st)
  /\ logged tfe (fetches st) (pending st)
  /\ accounted resolve models (fetches st) (modelMap st).
Proof.
  intros st Hlog Htasks Hmap Hres. unfold st, resumed. simpl.
  assert (Hbatch : (batch, tfe) ∈ log) by (apply (Htasks (Awaiting batch)); set_solver).
  split; [|split].
  - apply disciplined_app; [done|].
    intros batch' expanded [Hin|Hin]%elem_of_app.
    + apply elem_of_retry_call in Hin as [[= -> ->] Hcause].
      destruct (Hlog _ _ Hbatch) as (? & ? & _). eauto 10.
    + apply elem_of_issued in Hin as [-> Hin].
      apply spawn_shape in Hin as [? ?]. eauto.
  - intros t [Hin|Hin]%elem_of_app.
    + eapply (logged_weaken _ log); [done|set_solver|]. set_solver.
    + pose proof (spawn_shape _ _ _ Hin) as Hshape.
      destruct t as [batch'|e]; [|done].
      rewrite !elem_of_app, elem_of_issued. auto.
  - intros key document Hlook.
    destruct (merge_spec resolved m) as [_ Hfrom].
    destruct (Hfrom _ _ Hlook) as [Hold|Hnew].
    + eapply accounted_weaken; [done| |done]. set_solver.
    + right. destruct (resolve_with_retry_logged tfe batch log Hbatch)
        as (expanded & Hin & Hcall).
      exists batch, expanded, resolved. rewrite <- Hcall. set_solver.
Qed.

Lemma settles_sound tfe models st out log' :
  settles resolve tfe st (out, log') ->
  disciplined resolve tfe (fetches st) ->
  logged tfe (fetches st) (pending st) ->
  accounted resolve models (fetches st) (modelMap st) ->
  disciplined resolve tfe log'
  /\ fetches st ⊆ log'
  /\ match out with
     | Ok m' => accounted resolve models log' m' /\ dom (modelMap st) ⊆ dom m'
     | Throw e => e = TypeError \/ thrown_by resolve log' e
     end.
Proof.
  intros H. remember (out, log') as final eqn:Hfinal. revert Hfinal.
  induction H as [m log|m before e after log|m before batch after log e Hres
                  |m before batch after log resolved final Hres Hrun IH];
    simpl; intros Hfinal Hlog Htasks Hmap.
  - by injection Hfinal as <- <-.
  - injection Hfinal as <- <-. do 2 (split; [done|]). left.
    apply (Htasks (Rejected e)). set_solver.
  - injection Hfinal as <- <-.
    assert (Hbatch : (batch, tfe) ∈ log) by (apply (Htasks (Awaiting batch)); set_solver).
    split; [|split; [set_solver|]].
    + apply disciplined_app; [done|].
      intros batch' expanded Hin.
      apply elem_of_retry_call in Hin as [[= -> ->] Hcause].
      destruct (Hlog _ _ Hbatch) as (? & ? & _). eauto 10.
    + right. destruct (resolve_with_retry_logged tfe batch log Hbatch)
        as (expanded & Hin & Hcall).
      exists batch, expanded. by rewrite <- Hcall.
  - destruct (resumed_sound tfe models m before batch after log resolved)
      as (Hlog' & Htasks' & Hmap'); [done..|].
    destruct (IH Hfinal Hlog' Htasks' Hmap') as (Hfinal_log & Hsub & Hout).
    split; [done|]. simpl in Hsub. split; [set_solver|].
    destruct out as [m'|e]; [|done]. destruct Hout as [Hacc Hdom].
    split; [done|]. simpl in Hdom.
    destruct (merge_spec resolved m) as [Hmerge _]. set_solver.
Qed.

Lemma entered_sound tfe models model id m log :
  model ∈ models ->
  prop "@id" model = Some id ->
  disciplined resolve tfe log ->
  accounted resolve models log m ->
  let st := entered tfe model (assign (to_string id) model m) log in
  disciplined resolve tfe (fetches st)
  /\ logged tfe (fetches st) (pending st)
  /\ accounted resolve models (fetches st) (modelMap st).
Proof.
  intros Hin Hid Hlog Hmap. unfold entered. simpl. split; [|split].
  - apply disciplined_app; [done|].
    intros batch expanded [-> Htask]%elem_of_issued.
    apply start_shape in Htask as [? ?]. eauto.
  - intros t Ht. pose proof (start_shape _ _ _ Ht) as Hshape.
    destruct t as [batch|e]; [|done].
    rewrite elem_of_app, elem_of_issued. auto.
  - intros key document Hlook. unfold assign in Hlook.
    destruct (String.eqb (to_string id) "__proto__");
      [eapply accounted_weaken; [done| |done]; set_solver|].
    destruct (decide (to_string id = key)) as [<-|Hne].
    + rewrite lookup_insert_eq in Hlook. injection Hlook as <-. left.
      by rewrite Hid.
    + rewrite lookup_insert_ne in Hlook by done.
      eapply accounted_weaken; [done| |done]. set_solver.
Qed.

Lemma dom_assign key value (m : gmap string json) :
  dom m ⊆ dom (assign key value m).
Proof. unfold assign. case_match; [done|]. rewrite dom_insert_L. set_solver. Qed.

Lemma seed_Throw model m e :
  seed model m = Throw e ->
  e = TypeError
  \/ prop "@id" model = None
     /\ e = Error ("model " +:+ to_string model +:+ " does not contain @id member").
Proof.
  unfold seed. destruct model; simpl; try (intros [= <-]; auto).
  destruct (assoc _ _); [done|]. intros [= <-]. auto.
Qed.

Lemma expands_sound tfe all models m log out log' :
  expands resolve tfe models m log (out, log') ->
  (forall model, model ∈ models -> model ∈ all) ->
  disciplined resolve tfe log ->
  accounted resolve all log m ->
  disciplined resolve tfe log'
  /\ match out with
     | Ok m' =>
         accounted resolve all log' m'
         /\ dom m ⊆ dom m'
         /\ ((forall model, model ∈ models -> plain_model model) ->
             identifiers models ⊆ dom m')
     | Throw e =>
         e = TypeError
         \/ (exists model,
               model ∈ models
               /\ prop "@id" model = None
               /\ e = Error ("model " +:+ to_string model
                               +:+ " does not contain @id member"))
         \/ thrown_by resolve log' e
     end.
Proof.
  intros H. remember (out, log') as final eqn:Hfinal. revert Hfinal.
  induction H as [m log|model rest m log e Hseed|model rest m log seeded e log1 Hseed Hrun
                  |model rest m log seeded expanded log1 final Hseed Hrun Hrest IH];
    intros Hfinal Hall Hlog Hmap.
  - injection Hfinal as <- <-. split; [done|]. do 2 (split; [done|]).
    unfold identifiers. simpl. set_solver.
  - injection Hfinal as <- <-. split; [done|].
    destruct (seed_Throw _ _ _ Hseed) as [?|[? ?]]; [by left|right; left].
    exists model. split; [by left|done].
  - injection Hfinal as <- <-.
    destruct (seed_Ok _ _ _ Hseed) as (id & Hid & ->).
    destruct (entered_sound tfe all model id m log) as (H1 & H2 & H3);
      [apply Hall; by left|done..|].
    destruct (settles_sound _ all _ _ _ Hrun H1 H2 H3) as (? & _ & [?|?]); auto.
  - destruct (seed_Ok _ _ _ Hseed) as (id & Hid & ->).
    destruct (entered_sound tfe all model id m log) as (H1 & H2 & H3);
      [apply Hall; by left|done..|].
    destruct (settles_sound _ all _ _ _ Hrun H1 H2 H3) as (Hlog1 & _ & Hmap1 & Hdom).
    destruct IH as [Hlog' Hout]; [done|intros; apply Hall; by right|done..|].
    split; [done|]. destruct out as [m'|e].
    + destruct Hout as (Hacc & Hgrow & Hids). split; [done|].
      simpl in Hdom. pose proof (dom_assign (to_string id) model m) as Hseeded.
      split; [set_solver|]. intros Hplain.
      destruct (Hplain model) as [Hproto _]; [by left|].
      rewrite Hid in Hproto. simpl in Hproto.
      rewrite assign_plain, dom_insert_L in Hdom by congruence.
      specialize (Hids ltac:(intros; apply Hplain; by right)).
      unfold identifiers in *. simpl. rewrite Hid. simpl. set_solver.
    + destruct Hout as [?|[(other & ? & ? & ?)|?]]; auto.
      right; left. exists other. split; [by right|done].
Qed.

Lemma expand_starts_sound tfe models :
  disciplined resolve tfe [] /\ accounted resolve models [] ∅.
Proof.
  split.
  - by intros batch expanded ?%elem_of_nil.
  - intros key document Hlook. by rewrite lookup_empty in Hlook.
Qed.

(** Whatever the resolver does and in whatever order it settles, [expand]
    calls it only for batches that are not empty and name no string
    twice, with the flag [expand] was given; a call without the flag
    when the flag was given is the second attempt for a batch whose first
    attempt failed with a [RestError]. *)
Theorem expand_resolver_calls tfe models out log batch expanded :
  expands resolve tfe models ∅ [] (out, log) ->
  (batch, expanded) ∈ log ->
  batch <> []
  /\ NoDup (strings_of batch)
  /\ (expanded = tfe
      \/ expanded = false
         /\ (batch, tfe) ∈ log
         /\ exists cause, resolve batch tfe = Throw (RestError cause)).
Proof.
  intros Hrun. destruct (expand_starts_sound tfe models) as [Hlog Hmap].
  destruct (expands_sound _ models _ _ _ _ _ Hrun) as [Hcalls _]; [done..|].
  apply Hcalls.
Qed.

(** [expand] invents nothing.  For plain initial models and a resolver
    that returns plain documents (so that no assignment is to
    [__proto__]), every entry of the map it returns, under any schedule,
    is an initial model under its own ["@id"], or a document the resolver
    returned under that key in one of the calls made; and the ["@id"] of
    every initial model is a key of the map. *)
Theorem expand_entries_accounted tfe models m log :
  plain_resolver resolve ->
  (forall model, model ∈ models -> plain_model model) ->
  expands resolve tfe models ∅ [] (Ok m, log) ->
  identifiers models ⊆ dom m
  /\ forall key document,
      m !! key = Some document ->
      (document ∈ models /\ to_string <$> prop "@id" document = Some key)
      \/ exists batch expanded resolved,
          (batch, expanded) ∈ log
          /\ resolve batch expanded = Ok resolved
          /\ (key, document) ∈ resolved.
Proof.
  intros _ Hmodels Hrun. destruct (expand_starts_sound tfe models) as [Hlog Hmap].
  destruct (expands_sound _ models _ _ _ _ _ Hrun) as (_ & Hacc & _ & Hids); [done..|].
  split; [auto|done].
Qed.

(** A rejection of [expand] is a [TypeError] (a [null] where a model is
    expected, a [contents] that is not an array), the [Error] for an
    initial model without ["@id"], or the error of one of the resolver
    calls made; nothing else is thrown. *)
Theorem expand_rejections tfe models e log :
  expands resolve tfe models ∅ [] (Throw e, log) ->
  e = TypeError
  \/ (exists model,
        model ∈ models
        /\ prop "@id" model = None
        /\ e = Error ("model " +:+ to_string model +:+ " does not contain @id member"))
  \/ exists batch expanded, (batch, expanded) ∈ log /\ resolve batch expanded = Throw e.
Proof.
  intros Hrun. destruct (expand_starts_sound tfe models) as [Hlog Hmap].
  destruct (expands_sound _ models _ _ _ _ _ Hrun) as [_ Hout]; [done..|].
  exact Hout.
Qed.

End ProvenanceProperties.

(** The Thermostat expanded with [tryFromExpanded] against a server that
    fails every request for an expanded document: the Device is asked for
    twice, the second time without the flag. *)
Lemma expand_resolver_calls_witness :
  [DStr Example.device_id] <> []
  /\ NoDup (Closure.strings_of [DStr Example.device_id])
  /\ (false = true
      \/ false = false
         /\ ([DStr Example.device_id], true)
              ∈ [([DStr Example.device_id], true); ([DStr Example.device_id], false)]
         /\ exists cause,
             Example.resolve_failing_expanded [DStr Example.device_id] true
             = Throw (RestError cause)).
Proof.
  apply (expand_resolver_calls Example.resolve_failing_expanded true [Example.thermostat]
           (Ok (Closure.seeds [Example.thermostat; Example.device]))).
  - apply (expand_from_expands _ 5). vm_compute. reflexivity.
  - repeat constructor.
Defined.

(** Without the Device in the repository, the rejection of [expand] is
    the resolver's. *)
Lemma expand_rejections_witness :
  ResolverError NotFound = TypeError
  \/ (exists model,
        model ∈ [Example.thermostat]
        /\ prop "@id" model = None
        /\ ResolverError NotFound
           = Error ("model " +:+ to_string model +:+ " does not contain @id member"))
  \/ exists batch expanded,
      (batch, expanded) ∈ [([DStr Example.device_id], false)]
      /\ Example.resolve_without_device batch expanded = Throw (ResolverError NotFound).
Proof.
  apply (expand_rejections Example.resolve_without_device false [Example.thermostat]).
  apply (expand_from_expands _ 5). vm_compute. reflexivity.
Defined.

(** ** Termination over a finite repository *)

Section ProgressProperties.

Import PseudoParser Closure Progress.

Variable resolve : list dep -> bool -> result (list (string * json)).
Variable universe : gset string.
Variable width : nat.

Hypothesis Hanswers : answers_requests resolve.
Hypothesis Hbounded : bounded_repository resolve universe width.

Lemma potential_app m tasks tasks' :
  potential width universe m (tasks ++ tasks')
  = (potential width universe m tasks + potential width universe m tasks')%nat.
Proof.
  induction tasks as [|[batch|e] tasks IH]; simpl; [done| |done]. rewrite IH. lia.
Qed.

Lemma rank_mono (m m' : gmap string json) batch :
  dom m ⊆ dom m' -> (rank universe m' batch <= rank universe m batch)%nat.
Proof. intros Hdom. apply subseteq_size. set_solver. Qed.

Lemma potential_mono (m m' : gmap string json) tasks :
  dom m ⊆ dom m' ->
  (potential width universe m' tasks <= potential width universe m tasks)%nat.
Proof.
  intros Hdom. induction tasks as [|[batch|e] tasks IH]; simpl; [done| |done].
  pose proof (Nat.pow_le_mono_r (S width) _ _ ltac:(lia) (rank_mono m m' batch Hdom)).
  lia.
Qed.

Lemma elem_of_keys batch key :
  key ∈ keys batch <-> exists d, d ∈ batch /\ dep_to_key d = key.
Proof.
  unfold keys. rewrite elem_of_list_to_set, list_elem_of_fmap. naive_solver.
Qed.

(** What [start] leaves in flight: at most one batch, not empty, of keys
    of the universe that are not in the map. *)
Lemma start_within (m : gmap string json) document :
  named_within universe document ->
  start m document = []
  \/ (exists e, start m document = [Rejected e])
  \/ exists batch,
      start m document = [Awaiting batch]
      /\ batch <> []
      /\ keys batch ⊆ universe
      /\ keys batch ## dom m
      /\ "__proto__" ∉ keys batch.
Proof.
  intros Hnamed. unfold start.
  destruct (_getModelDependencies document) as [dependencies|e] eqn:Hdeps; [|eauto].
  destruct (dependenciesToResolve m dependencies) as [|d batch] eqn:Hbatch; [auto|].
  right; right. exists (d :: batch). split; [done|split; [done|]].
  rewrite <- Hbatch. split; [|split].
  - intros key (d' & [Hd' _]%elem_of_dependenciesToResolve & <-)%elem_of_keys. eauto.
  - intros key (d' & [_ [Hd' _]]%elem_of_dependenciesToResolve & <-)%elem_of_keys. done.
  - intros (d' & [_ [_ Hd']]%elem_of_dependenciesToResolve & Heq)%elem_of_keys.
    by rewrite Heq in Hd'.
Qed.

Lemma rank_disjoint (m : gmap string json) batch :
  keys batch ## dom m -> rank universe m batch = size (universe ∖ dom m).
Proof. intros Hdisjoint. unfold rank. f_equal. set_solver. Qed.

Lemma spawn_within (m : gmap string json) (documents : list json) bound :
  (forall document, document ∈ documents -> named_within universe document) ->
  (size (universe ∖ dom m) <= bound)%nat ->
  asking_within universe (concat (map (start m) documents))
  /\ (potential width universe m (concat (map (start m) documents))
      <= length documents * S width ^ bound)%nat.
Proof.
  intros Hnamed Hbound. induction documents as [|document documents IH]; simpl.
  - split; [by intros batch ?%elem_of_nil|lia].
  - destruct IH as [IHwithin IHpotential]; [intros; apply Hnamed; by right|].
    rewrite potential_app.
    destruct (start_within m document)
      as [->|[[e ->]|(batch & -> & ? & ? & Hdisjoint & ?)]];
      [apply Hnamed; by left|..]; simpl.
    + split; [done|lia].
    + split; [|lia]. intros batch [?|?]%elem_of_cons; [done|auto].
    + split; [intros batch' [[= ->]|?]%elem_of_cons; auto|].
      rewrite (rank_disjoint _ _ Hdisjoint).
      pose proof (Nat.pow_le_mono_r (S width) _ _ ltac:(lia) Hbound). lia.
Qed.

Lemma rank_after (m m' : gmap string json) batch :
  batch <> [] ->
  keys batch ⊆ universe ->
  dom m ∪ keys batch ⊆ dom m' ->
  (size (universe ∖ dom m') < rank universe m batch)%nat.
Proof.
  intros Hbatch Hkeys Hdom. apply subset_size.
  destruct batch as [|d batch]; [done|].
  assert (Hd : dep_to_key d ∈ keys (d :: batch)) by (apply elem_of_keys; set_solver).
  split; [set_solver|]. intros Hsub.
  assert (dep_to_key d ∈ universe ∖ dom m') as Hin by (apply Hsub; set_solver).
  set_solver.
Qed.

Lemma settle_terminates fuel tfe st :
  asking_within universe (pending st) ->
  (potential width universe (modelMap st) (pending st) <= fuel)%nat ->
  is_Some (settle resolve fuel tfe st).
Proof.
  revert st. induction fuel as [|fuel IH]; intros [m tasks log]; simpl;
    intros Hwithin Hpotential.
  - destruct (first_rejected tasks); [eauto|].
    destruct tasks as [|[batch|e] rest]; [eauto| |eauto].
    simpl in Hpotential.
    pose proof (Nat.pow_nonzero (S width) (rank universe m batch) ltac:(lia)). lia.
  - destruct (first_rejected tasks); [eauto|].
    destruct tasks as [|[batch|e] rest]; [eauto| |eauto].
    destruct (resolve_with_retry resolve batch tfe) as [resolved|e] eqn:Hres; [|eauto].
    destruct (Hwithin batch) as (Hbatch & Hkeys & Hproto); [by left|].
    destruct (resolve_with_retry_Ok _ _ _ _ Hres) as [expanded Hcall].
    destruct (Hbounded _ _ _ Hcall) as [Hwidth Hnamed].
    destruct (merge_spec resolved m) as [Hdom _].
    assert (Hgrown : dom m ∪ keys batch ⊆ dom (merge resolved m)).
    { rewrite Hdom. apply union_mono_l. intros key Hkey.
      apply elem_of_difference. split; [|set_solver].
      apply elem_of_keys in Hkey as (d & Hd & <-).
      apply elem_of_list_to_set. eauto. }
    pose proof (rank_after m _ batch Hbatch Hkeys Hgrown) as Hrank.
    destruct (spawn_within (merge resolved m) resolved.*2
                (pred (rank universe m batch)) Hnamed ltac:(lia))
      as [Hspawned Hspawn].
    apply IH; unfold resumed; simpl.
    + intros batch' [Hin|Hin]%elem_of_app; [apply Hwithin; by right|].
      by apply Hspawned.
    + rewrite potential_app. unfold spawn.
      pose proof (potential_mono m (merge resolved m) rest ltac:(set_solver)).
      simpl in Hpotential. rewrite length_fmap in Hspawn.
      destruct (rank universe m batch) as [|r]; [lia|]. simpl in *.
      assert (length resolved * S width ^ r <= width * S width ^ r)%nat
        by (apply Nat.mul_le_mono_r; lia).
      pose proof (Nat.pow_nonzero (S width) r ltac:(lia)). lia.
Qed.

(** Termination of [expand] over a finite repository: when the resolver
    answers the requests it fulfils and returns at most [width] documents
    per call, and the dependencies of the initial models and of the
    resolved documents are among finitely many keys, [expand] completes,
    fulfilled or rejected, whatever the cycles among the documents.
    [(width + 1) ^ size universe] settled batches per initial model are
    enough. *)
Theorem expand_terminates fuel models tfe :
  (forall model, model ∈ models -> named_within universe model) ->
  (S width ^ size universe <= fuel)%nat ->
  is_Some (expand resolve fuel models tfe).
Proof.
  intros Hmodels Hfuel. unfold expand. generalize (∅ : gmap string json).
  generalize ([] : list (list dep * bool)).
  induction models as [|model rest IH]; intros log m; simpl; [eauto|].
  destruct (seed model m) as [seeded|e]; [|eauto].
  assert (Hsettled : is_Some (_expand resolve fuel model seeded log tfe)).
  { unfold _expand. apply settle_terminates; unfold entered; simpl.
    - destruct (start_within seeded model) as [->|[[e ->]|(batch & -> & ? & ? & _ & ?)]];
        [apply Hmodels; by left|..].
      + by intros batch ?%elem_of_nil.
      + intros batch [?|?%elem_of_nil]%elem_of_cons; done.
      + by intros batch' [[= ->]|?%elem_of_nil]%elem_of_cons.
    - etrans; [|exact Hfuel].
      destruct (start_within seeded model) as [->|[[e ->]|(batch & -> & _)]];
        [apply Hmodels; by left|..]; simpl; try lia.
      pose proof (Nat.pow_le_mono_r (S width) (rank universe seeded batch) (size universe)
                    ltac:(lia) ltac:(apply subseteq_size; set_solver)).
      lia. }
  destruct Hsettled as [[[expanded|e] log'] ->]; [|eauto].
  apply IH. intros. apply Hmodels. by right.
Qed.

End ProgressProperties.

(** ["expanded"] is not a mode: the call rejects without asking the
    resolver. *)
Lemma getModels_unknown_mode_witness :
  ModelsRepositoryClient.getModels Example.resolve 0 "enabled"
    (ModelsRepositoryClient.OneDtmi Example.thermostat_id)
    (Some {| ModelsRepositoryClient.dependencyResolution := Some "expanded" |})
  = Some (Throw (EvalError "Invalid dependency resolution mode: expanded"), []).
Proof.
  apply (getModels_unknown_mode Example.resolve 0 "enabled"
           (ModelsRepositoryClient.OneDtmi Example.thermostat_id)
           (Some {| ModelsRepositoryClient.dependencyResolution := Some "expanded" |}));
    discriminate.
Defined.

(** A client for a repository of its own, constructed without a mode,
    resolves the Thermostat without asking for expanded documents and
    expands it: the Device is asked for next, and both are returned. *)
Lemma default_mode_follows_location_witness :
  ModelsRepositoryClient.getModels Example.resolve 5
    (ModelsRepositoryClient.configured_dependencyResolution
       {| ModelsRepositoryClient.repositoryLocation := Some "C:\models";
          ModelsRepositoryClient.clientDependencyResolution := None |})
    (ModelsRepositoryClient.DtmiArray [Example.thermostat_id]) None
  = Some (Ok (Some (Closure.seeds [Example.thermostat; Example.device])),
          [([DStr Example.thermostat_id], false); ([DStr Example.device_id], false)]).
Proof.
  rewrite (default_mode_follows_location Example.resolve 5
             {| ModelsRepositoryClient.repositoryLocation := Some "C:\models";
                ModelsRepositoryClient.clientDependencyResolution := None |}
             [Example.thermostat_id] (or_introl eq_refl)).
  vm_compute. reflexivity.
Defined.

Lemma resolve_cycle_Ok batch expanded resolved :
  Example.resolve_cycle batch expanded = Ok resolved ->
  exists dtmi document,
    batch = [DStr dtmi]
    /\ resolved = [(dtmi, document)]
    /\ (document = Example.cyclic_a \/ document = Example.cyclic_b).
Proof.
  unfold Example.resolve_cycle.
  destruct batch as [|[dtmi|] [|]]; try discriminate.
  repeat case_match; intros [= <-]; eauto 10.
Qed.

Lemma resolve_cycle_plain : Closure.plain_resolver Example.resolve_cycle.
Proof.
  intros batch expanded resolved key document Hcall Hin. revert Hcall.
  unfold Example.resolve_cycle.
  destruct batch as [|[dtmi|] [|]]; try discriminate.
  repeat case_match; intros [= <-]; apply list_elem_of_singleton in Hin;
    match goal with H : String.eqb _ _ = true |- _ => apply String.eqb_eq in H end;
    simplify_eq;
    (split; [discriminate|split; [discriminate|]]);
    intros dependencies d [= <-] ->%list_elem_of_singleton; reflexivity.
Qed.

Lemma cyclic_a_plain :
  forall model, model ∈ [Example.cyclic_a] -> Closure.plain_model model.
Proof.
  intros model ->%list_elem_of_singleton. split; [discriminate|].
  intros dependencies d [= <-] ->%list_elem_of_singleton. reflexivity.
Qed.

Lemma resolve_cycle_answers_requests : Closure.answers_requests Example.resolve_cycle.
Proof.
  intros batch expanded resolved (dtmi & document & -> & -> & _)%resolve_cycle_Ok d.
  intros ->%list_elem_of_singleton. simpl. left.
Qed.

Lemma resolve_cycle_bounded :
  Progress.bounded_repository Example.resolve_cycle
    {["dtmi:com:example:A;1"; "dtmi:com:example:B;1"]} 1.
Proof.
  intros batch expanded resolved (dtmi & document & -> & -> & Hdocument)%resolve_cycle_Ok.
  split; [simpl; lia|].
  intros document' ->%list_elem_of_singleton dependencies d.
  destruct Hdocument as [->| ->]; intros [= <-] ->%list_elem_of_singleton; simpl;
    set_solver.
Qed.

(** The client in the mode ["enabled"] over the cycle of the examples. *)
Lemma getModels_enabled_returns_closure_witness :
  Closure.closed
    (<["dtmi:com:example:B;1" := Example.cyclic_b]>
       {["dtmi:com:example:A;1" := Example.cyclic_a]}).
Proof.
  destruct (getModels_enabled_returns_closure Example.resolve_cycle 5 "enabled"
              ["dtmi:com:example:A;1"] None
              (<["dtmi:com:example:B;1" := Example.cyclic_b]>
                 {["dtmi:com:example:A;1" := Example.cyclic_a]})
              [([DStr "dtmi:com:example:A;1"], false);
               ([DStr "dtmi:com:example:B;1"], false)]
              eq_refl resolve_cycle_answers_requests resolve_cycle_plain)
    as (base & calls & _ & _ & Hclosed & _).
  - vm_compute. reflexivity.
  - exact Hclosed.
Defined.

(** A model with a Component of the schema it also extends: the Device
    is a dependency once. *)
Lemma string_dependencies_witness :
  NoDup (Closure.strings_of [DStr Example.device_id])
  /\ (DStr Example.device_id ∈ [DStr Example.device_id]
      <-> Closure.component_schema_of
            (JObj [("@id", JStr Example.thermostat_id);
                   ("contents",
                    JArr [JObj [("@type", JStr "Component");
                                ("schema", JStr Example.device_id)]]);
                   ("extends", JStr Example.device_id)])
            Example.device_id
          \/ Closure.extends_string_of
               (JObj [("@id", JStr Example.thermostat_id);
                      ("contents",
                       JArr [JObj [("@type", JStr "Component");
                                   ("schema", JStr Example.device_id)]]);
                      ("extends", JStr Example.device_id)])
               Example.device_id).
Proof.
  destruct (string_dependencies
              [("@id", JStr Example.thermostat_id);
               ("contents",
                JArr [JObj [("@type", JStr "Component");
                            ("schema", JStr Example.device_id)]]);
               ("extends", JStr Example.device_id)]
              [DStr Example.device_id] eq_refl) as [Honce Hiff].
  split; [exact Honce|exact (Hiff Example.device_id)].
Defined.

(** The cycle of the examples: the map [expand] returns for A holds A
    and B and is closed. *)
Lemma expand_returns_closed_map_witness :
  Closure.closed
    (<["dtmi:com:example:B;1" := Example.cyclic_b]>
       {["dtmi:com:example:A;1" := Example.cyclic_a]})
  /\ Closure.identifiers [Example.cyclic_a]
       ⊆ dom (<["dtmi:com:example:B;1" := Example.cyclic_b]>
                ({["dtmi:com:example:A;1" := Example.cyclic_a]} : gmap string json)).
Proof.
  destruct (expand_returns_closed_map Example.resolve_cycle false [Example.cyclic_a]
              (<["dtmi:com:example:B;1" := Example.cyclic_b]>
                 {["dtmi:com:example:A;1" := Example.cyclic_a]})
              [([DStr "dtmi:com:example:B;1"], false)]
              resolve_cycle_answers_requests resolve_cycle_plain cyclic_a_plain)
    as (Hclosed & Hids & _).
  - apply (expand_from_expands _ 5). vm_compute. reflexivity.
  - split; [exact Hclosed|exact Hids].
Defined.

(** The cycle of the examples lies within two keys and the resolver
    returns one document per call: four batches are enough. *)
Lemma expand_terminates_witness :
  is_Some (PseudoParser.expand Example.resolve_cycle 4 [Example.cyclic_a] false).
Proof.
  apply (expand_terminates Example.resolve_cycle
           {["dtmi:com:example:A;1"; "dtmi:com:example:B;1"]} 1
           resolve_cycle_answers_requests resolve_cycle_bounded).
  - intros model ->%list_elem_of_singleton dependencies d.
    intros [= <-] ->%list_elem_of_singleton. simpl.
    apply elem_of_union_r, elem_of_singleton. reflexivity.
  - vm_compute. lia.
Defined.

(** The cycle of the examples: the B of the map [expand] returns for A
    was resolved by the one call made. *)
Lemma expand_entries_accounted_witness :
  (Example.cyclic_b ∈ [Example.cyclic_a]
   /\ to_string <$> prop "@id" Example.cyclic_b = Some "dtmi:com:example:B;1")
  \/ exists batch expanded resolved,
      (batch, expanded) ∈ [([DStr "dtmi:com:example:B;1"], false)]
      /\ Example.resolve_cycle batch expanded = Ok resolved
      /\ ("dtmi:com:example:B;1", Example.cyclic_b) ∈ resolved.
Proof.
  destruct (expand_entries_accounted Example.resolve_cycle false [Example.cyclic_a]
              (<["dtmi:com:example:B;1" := Example.cyclic_b]>
                 {["dtmi:com:example:A;1" := Example.cyclic_a]})
              [([DStr "dtmi:com:example:B;1"], false)]
              resolve_cycle_plain cyclic_a_plain) as [_ H].
  - apply (expand_from_expands _ 5). vm_compute. reflexivity.
  - apply H. vm_compute. reflexivity.
Defined.
